(** * spreadsheet-cleaner: the contact-cleaning pipeline of [main.py]

    A shallow embedding of the Python 3 branch of the program ([PY2] false):
    a [str] is a sequence of Unicode code points, a dict of fixed keys is a
    record, the ordered dict [deduped] is an association list in insertion
    order, and the objects whose [id] the deduplication reads carry their
    address with them. *)

From Stdlib Require Import String Ascii.
From Stdlib Require Import Arith NArith List Bool Lia Permutation.
From Stdlib Require Import Decimal DecimalN.
Import ListNotations.

(* ================================================================== *)
(** ** Strings of the Python runtime *)

Definition char := N.
Definition str := list char.

(** A literal of the source, as code points. *)
Definition lit (s : string) : str := map N_of_ascii (list_ascii_of_string s).

(** The rows of the Unicode character database that CPython consults for a
    code point outside ASCII.  The database is part of the runtime and not
    of the repository, so it is left open.  Lower-casing sees the
    characters before and after the one it maps, as CPython's [lower_ucs4]
    does for the capital sigma. *)
Class Unicode := {
  uni_isspace : char -> bool;
  uni_isdecimal : char -> bool;
  uni_isdigit : char -> bool;
  uni_iscased : char -> bool;
  uni_toupper : char -> str;
  uni_totitle : char -> str;
  uni_tolower : str -> char -> str -> str
}.

(** The rows U+0080 to U+00FF of the database; the characters above keep
    their value and have no property.  Used to run the program on concrete
    inputs. *)
Definition latin1_cased (c : char) : bool :=
  ((c =? 170) || (c =? 181) || (c =? 186)
   || ((192 <=? c) && (c <=? 214)) || ((216 <=? c) && (c <=? 246))
   || ((248 <=? c) && (c <=? 255)))%N.

Definition latin1_small (c : char) : bool :=
  ((224 <=? c) && (c <=? 254) && negb (c =? 247))%N.

Definition latin1_capital (c : char) : bool :=
  ((192 <=? c) && (c <=? 222) && negb (c =? 215))%N.

Definition latin1 : Unicode := {|
  uni_isspace c := ((c =? 133) || (c =? 160))%N;
  uni_isdecimal _ := false;
  uni_isdigit c := ((c =? 178) || (c =? 179) || (c =? 185))%N;
  uni_iscased := latin1_cased;
  uni_toupper c :=
    if (c =? 181)%N then [924%N]
    else if (c =? 223)%N then [83%N; 83%N]
    else if (c =? 255)%N then [376%N]
    else if latin1_small c then [(c - 32)%N] else [c];
  uni_totitle c :=
    if (c =? 181)%N then [924%N]
    else if (c =? 223)%N then [83%N; 115%N]
    else if (c =? 255)%N then [376%N]
    else if latin1_small c then [(c - 32)%N] else [c];
  uni_tolower _ c _ := if latin1_capital c then [(c + 32)%N] else [c]
|}.

Section Runtime.
Context {U : Unicode}.

Definition is_ascii (c : char) : bool := (c <? 128)%N.
Definition ascii_upper (c : char) : bool := ((65 <=? c) && (c <=? 90))%N.
Definition ascii_lower (c : char) : bool := ((97 <=? c) && (c <=? 122))%N.
Definition ascii_space (c : char) : bool :=
  (((9 <=? c) && (c <=? 13)) || ((28 <=? c) && (c <=? 31)) || (c =? 32))%N.
Definition ascii_digit (c : char) : bool := ((48 <=? c) && (c <=? 57))%N.

Definition up (c : char) : char := if ascii_lower c then (c - 32)%N else c.
Definition low (c : char) : char := if ascii_upper c then (c + 32)%N else c.

(** [Py_UNICODE_ISSPACE]: what [str.strip] strips and what [\s] matches. *)
Definition isspace (c : char) : bool :=
  if is_ascii c then ascii_space c else uni_isspace c.

(** [Py_UNICODE_ISDECIMAL]: what [\d] matches. *)
Definition isdecimal (c : char) : bool :=
  if is_ascii c then ascii_digit c else uni_isdecimal c.

(** [Py_UNICODE_ISDIGIT]: the test of [str.isdigit]. *)
Definition isdigit_char (c : char) : bool :=
  if is_ascii c then ascii_digit c else uni_isdigit c.

Definition iscased (c : char) : bool :=
  if is_ascii c then ascii_upper c || ascii_lower c else uni_iscased c.

Definition toupper (c : char) : str :=
  if is_ascii c then [up c] else uni_toupper c.

Definition totitle (c : char) : str :=
  if is_ascii c then [up c] else uni_totitle c.

Definition tolower (before : str) (c : char) (after : str) : str :=
  if is_ascii c then [low c] else uni_tolower before c after.

(** [str.lstrip], [str.rstrip] and [str.strip] without argument. *)
Fixpoint lstrip (s : str) : str :=
  match s with
  | [] => []
  | c :: t => if isspace c then lstrip t else s
  end.

Fixpoint rstrip (s : str) : str :=
  match s with
  | [] => []
  | c :: t =>
      match rstrip t with
      | [] => if isspace c then [] else [c]
      | t' => c :: t'
      end
  end.

Definition strip (s : str) : str := rstrip (lstrip s).

(** [str.upper], [str.lower], [str.title]. *)
Definition str_upper (s : str) : str := flat_map toupper s.

Fixpoint lower_from (before s : str) : str :=
  match s with
  | [] => []
  | c :: t => tolower before c t ++ lower_from (before ++ [c]) t
  end.

Definition str_lower (s : str) : str := lower_from [] s.

Fixpoint title_from (before : str) (previous_is_cased : bool) (s : str) : str :=
  match s with
  | [] => []
  | c :: t =>
      (if previous_is_cased then tolower before c t else totitle c)
      ++ title_from (before ++ [c]) (iscased c) t
  end.

Definition str_title (s : str) : str := title_from [] false s.

(** [s.split(sep)] for a separator of one character and [sep.join(l)]. *)
Fixpoint split (sep : char) (s : str) : list str :=
  match s with
  | [] => [[]]
  | c :: t =>
      if (c =? sep)%N then [] :: split sep t
      else match split sep t with
           | w :: ws => (c :: w) :: ws
           | [] => [[c]]
           end
  end.

Fixpoint join (sep : str) (l : list str) : str :=
  match l with
  | [] => []
  | [w] => w
  | w :: ws => w ++ sep ++ join sep ws
  end.

Fixpoint startswith (s prefix : str) {struct prefix} : bool :=
  match prefix, s with
  | [], _ => true
  | p :: prefix', c :: s' => (c =? p)%N && startswith s' prefix'
  | _ :: _, [] => false
  end.

(** [s.isdigit()]: false on the empty string. *)
Definition isdigit (s : str) : bool :=
  match s with
  | [] => false
  | _ => forallb isdigit_char s
  end.

(** *** The regular expressions of the program

    A pattern is a sequence of items: the anchors, one character of a
    class, or a greedy run of one or more characters of a class.  The
    matcher backtracks as [sre] does and returns what is left of the
    subject after the match. *)
Inductive item :=
| Bol                          (* ^ *)
| Eol                          (* $ *)
| One (p : char -> bool)       (* a class *)
| Many1 (p : char -> bool).    (* class+ *)

Definition regex := list item.

(** [$] without MULTILINE: the end, or just before a final newline. *)
Definition at_end (s : str) : bool :=
  match s with
  | [] => true
  | [c] => (c =? 10)%N
  | _ => false
  end.

Fixpoint match_at (r : regex) (at_start : bool) (s : str) {struct r} : option str :=
  match r with
  | [] => Some s
  | Bol :: r' => if at_start then match_at r' at_start s else None
  | Eol :: r' => if at_end s then match_at r' at_start s else None
  | One p :: r' =>
      match s with
      | c :: t => if p c then match_at r' false t else None
      | [] => None
      end
  | Many1 p :: r' =>
      (fix more (s : str) : option str :=
         match s with
         | c :: t =>
             if p c then
               match more t with
               | Some e => Some e
               | None => match_at r' false t
               end
             else None
         | [] => None
         end) s
  end.

(** [re.match(r, s)]: a match at the start of [s], or None. *)
Definition re_match (r : regex) (s : str) : option str := match_at r true s.

(** [re.sub(r, repl, s)]: the leftmost matches, not overlapping, replaced
    from left to right.  An empty match is replaced and the scan moves one
    character on; the patterns of the program never match empty. *)
Fixpoint sub_from (fuel : nat) (r : regex) (repl : str) (at_start : bool) (s : str) : str :=
  match fuel with
  | 0 => s
  | S fuel' =>
      match match_at r at_start s with
      | Some rest =>
          if Nat.ltb (length rest) (length s)
          then repl ++ sub_from fuel' r repl false rest
          else match s with
               | [] => repl
               | c :: t => repl ++ c :: sub_from fuel' r repl false t
               end
      | None =>
          match s with
          | [] => []
          | c :: t => c :: sub_from fuel' r repl false t
          end
      end
  end.

Definition re_sub (r : regex) (repl : str) (s : str) : str :=
  sub_from (S (length s)) r repl true s.

(* ================================================================== *)
(** ** Field normalisation *)

(** [text or ""] for a value that is None or a str. *)
Definition or_empty (text : option str) : str :=
  match text with
  | Some s => s
  | None => []
  end.

(** [not s] for a str. *)
Definition is_empty (s : str) : bool :=
  match s with
  | [] => true
  | _ => false
  end.

Definition normalise_spaces (text : option str) : str :=
  let text := strip (or_empty text) in
  re_sub [Many1 isspace] (lit " ") text.

(** [p[:1].upper() + p[1:].lower() if p else ""] *)
Definition capitalise_part (p : str) : str :=
  if is_empty p then [] else str_upper (firstn 1 p) ++ str_lower (skipn 1 p).

Definition clean_name (name : option str) : str :=
  let name := normalise_spaces name in
  if is_empty name then []
  else
    join (lit " ")
      (map (fun word => join (lit "-") (map capitalise_part (split 45%N word)))
           (split 32%N name)).

Definition clean_email (email : option str) : str :=
  str_lower (normalise_spaces email).

Definition clean_company (company : option str) : str :=
  let company := normalise_spaces company in
  if is_empty company then [] else str_title company.

(** The classes [[^\d+]] and [\D]. *)
Definition not_digit_or_plus (c : char) : bool := negb (isdecimal c || (c =? 43)%N).
Definition not_digit (c : char) : bool := negb (isdecimal c).

Definition clean_phone (phone : option str) : str :=
  let phone := normalise_spaces phone in
  let phone := re_sub [One not_digit_or_plus] [] phone in
  let phone := if startswith phone (lit "+44") then lit "0" ++ skipn 3 phone else phone in
  re_sub [One not_digit] [] phone.

End Runtime.

(* ================================================================== *)
(** ** Dicts *)

Fixpoint str_eqb (a b : str) : bool :=
  match a, b with
  | [], [] => true
  | x :: a', y :: b' => (x =? y)%N && str_eqb a' b'
  | _, _ => false
  end.

(** A dict with str keys, in insertion order (Python 3.7 and later). *)
Definition dict (V : Type) := list (str * V).

Fixpoint dict_get {V : Type} (d : dict V) (k : str) : option V :=
  match d with
  | [] => None
  | (k', v) :: d' => if str_eqb k' k then Some v else dict_get d' k
  end.

(** [k in d] *)
Definition dict_mem {V : Type} (d : dict V) (k : str) : bool :=
  match dict_get d k with
  | Some _ => true
  | None => false
  end.

(** [d[k] = v]: the value of an existing key is replaced where it stands,
    a new key goes to the end. *)
Fixpoint dict_set {V : Type} (d : dict V) (k : str) (v : V) : dict V :=
  match d with
  | [] => [(k, v)]
  | (k', v') :: d' =>
      if str_eqb k' k then (k', v) :: d' else (k', v') :: dict_set d' k v
  end.

Definition dict_keys {V : Type} (d : dict V) : list str := map fst d.
Definition dict_values {V : Type} (d : dict V) : list V := map snd d.

(* ================================================================== *)
(** ** Records *)

(** A row of [csv.DictReader]: column name to value, None where the line
    was short. *)
Definition row := dict (option str).

(** [row.get(key, default)] *)
Definition get (r : row) (key : str) (default : option str) : option str :=
  match dict_get r key with
  | Some v => v
  | None => default
  end.

(** The dict built by [clean_contact]. *)
Record contact := {
  name : str;
  email : str;
  phone : str;
  company : str
}.

(** [str(n)] of a non-negative int. *)
Fixpoint digits (d : uint) : str :=
  match d with
  | Nil => []
  | D0 d => 48%N :: digits d
  | D1 d => 49%N :: digits d
  | D2 d => 50%N :: digits d
  | D3 d => 51%N :: digits d
  | D4 d => 52%N :: digits d
  | D5 d => 53%N :: digits d
  | D6 d => 54%N :: digits d
  | D7 d => 55%N :: digits d
  | D8 d => 56%N :: digits d
  | D9 d => 57%N :: digits d
  end.

Definition format_int (n : N) : str := digits (N.to_uint n).

(** ["NOEMAIL_{}".format(id(c))] *)
Definition noemail_key (address : N) : str := lit "NOEMAIL_" ++ format_int address.

(** The keys of [stats], a dict of counters. *)
Inductive counter :=
| total | missing_name | missing_email | invalid_email
| missing_phone | invalid_phone | missing_company.

Definition counter_eqb (a b : counter) : bool :=
  match a, b with
  | total, total | missing_name, missing_name | missing_email, missing_email
  | invalid_email, invalid_email | missing_phone, missing_phone
  | invalid_phone, invalid_phone | missing_company, missing_company => true
  | _, _ => false
  end.

Definition stats := counter -> nat.

Definition stats0 : stats := fun _ => 0.

(** [stats[k] += 1] *)
Definition incr (k : counter) (s : stats) : stats :=
  fun k' => if counter_eqb k k' then S (s k') else s k'.

Section Pipeline.
Context {U : Unicode}.

Definition clean_contact (r : row) : contact := {|
  name := clean_name (get r (lit "name") (Some []));
  email := clean_email (get r (lit "email") (Some []));
  phone := clean_phone (get r (lit "phone") (Some []));
  company := clean_company (get r (lit "company") (Some []))
|}.

(** The class [[^@\s]]. *)
Definition not_at_or_space (c : char) : bool := negb ((c =? 64)%N || isspace c).
Definition is_char (x c : char) : bool := (c =? x)%N.

(** [^[^@\s]+@[^@\s]+\.[^@\s]+$] *)
Definition email_pattern : regex :=
  [Bol; Many1 not_at_or_space; One (is_char 64%N); Many1 not_at_or_space;
   One (is_char 46%N); Many1 not_at_or_space; Eol].

Definition is_valid_email (e : str) : bool :=
  let e := strip e in
  match re_match email_pattern e with
  | Some _ => true
  | None => false
  end.

Definition is_valid_uk_phone (p : str) : bool :=
  isdigit p && startswith p (lit "0")
  && (Nat.leb 10 (length p) && Nat.leb (length p) 11).

Definition completeness_score (c : contact) : nat :=
  fold_left (fun score field => if is_empty (field c) then score else S score)
            [name; email; phone; company] 0.

(** The body of the first loop of [main] after the row is cleaned. *)
Definition count_row (s : stats) (cleaned : contact) : stats :=
  let s := incr total s in
  let s := if is_empty (name cleaned) then incr missing_name s else s in
  let s := if is_empty (email cleaned) then incr missing_email s
           else if negb (is_valid_email (email cleaned)) then incr invalid_email s
           else s in
  let s := if is_empty (phone cleaned) then incr missing_phone s
           else if negb (is_valid_uk_phone (phone cleaned)) then incr invalid_phone s
           else s in
  if is_empty (company cleaned) then incr missing_company s else s.

Definition stats_step (acc : list contact * stats) (r : row) : list contact * stats :=
  let '(cleaned_contacts, s) := acc in
  let cleaned := clean_contact r in
  (cleaned_contacts ++ [cleaned], count_row s cleaned).

Definition stats_loop (contacts : list row) : list contact * stats :=
  fold_left stats_step contacts ([], stats0).

End Pipeline.

(** An element of [cleaned_contacts]: the address [id(c)] of the dict and
    its contents.  The dicts of the list are alive together, so their
    addresses differ. *)
Definition object := (N * contact)%type.
Definition obj_id (c : object) : N := fst c.
Definition fields (c : object) : contact := snd c.

Section Dedupe.
Context {U : Unicode}.

(** One turn of the second loop of [main], on [deduped] and
    [duplicates_removed]. *)
Definition dedupe_step (acc : dict object * nat) (c : object) : dict object * nat :=
  let '(deduped, duplicates_removed) := acc in
  let e := email (fields c) in
  if is_empty e then (dict_set deduped (noemail_key (obj_id c)) c, duplicates_removed)
  else if negb (dict_mem deduped e) then (dict_set deduped e c, duplicates_removed)
  else
    match dict_get deduped e with
    | Some existing =>
        ((if Nat.ltb (completeness_score (fields existing)) (completeness_score (fields c))
          then dict_set deduped e c else deduped),
         S duplicates_removed)
    | None => (deduped, duplicates_removed)   (* KeyError: excluded by the test above *)
    end.

Definition dedupe_loop (cleaned_contacts : list object) : dict object * nat :=
  fold_left dedupe_step cleaned_contacts ([], 0).

(** [deduped_contacts = list(deduped.values())] *)
Definition deduped_contacts (cleaned_contacts : list object) : list object :=
  dict_values (fst (dedupe_loop cleaned_contacts)).

Definition duplicates_removed (cleaned_contacts : list object) : nat :=
  snd (dedupe_loop cleaned_contacts).

End Dedupe.

(* ================================================================== *)
(** ** Loading *)

Inductive mode := TextUtf8 | Binary.

(** The exceptions of the run: the [IOError] that [load_contacts] raises
    itself, and whatever [open] or the csv reader raise. *)
Inductive exn :=
| IOError (message : str)
| LibraryError (message : str).

(** What the run asks of the file system, in order. *)
Inductive event :=
| Exists (path : str)
| Open (path : str) (m : mode)
| ReadCsv (path : str).

(** The file system: which paths exist, and for each what opening it and
    reading it as csv give. *)
Record filesystem := {
  fs_exists : str -> bool;
  fs_open : str -> mode -> option exn;
  fs_rows : str -> exn + list row
}.

(** Commands log the calls they make and stop at the first exception. *)
Definition IO (A : Type) := filesystem -> list event -> (exn + A) * list event.

Definition ret {A : Type} (a : A) : IO A := fun _ log => (inr a, log).
Definition raise {A : Type} (e : exn) : IO A := fun _ log => (inl e, log).
Definition bind {A B : Type} (m : IO A) (k : A -> IO B) : IO B :=
  fun fs log =>
    match m fs log with
    | (inr a, log') => k a fs log'
    | (inl e, log') => (inl e, log')
    end.

Notation "x <- m ;; k" := (bind m (fun x => k))
  (at level 61, m at next level, right associativity).

Definition os_path_exists (path : str) : IO bool :=
  fun fs log => (inr (fs_exists fs path), log ++ [Exists path]).

(** An open file is named by its path. *)
Definition open (path : str) (m : mode) : IO str :=
  fun fs log =>
    match fs_open fs path m with
    | Some e => (inl e, log ++ [Open path m])
    | None => (inr path, log ++ [Open path m])
    end.

(** [list(csv.DictReader(f))] *)
Definition list_DictReader (f : str) : IO (list row) :=
  fun fs log => (fs_rows fs f, log ++ [ReadCsv f]).

Definition PY2 : bool := false.

Definition open_csv_read (path : str) : IO str :=
  if PY2 then open path Binary else open path TextUtf8.

Definition load_contacts (path : str) : IO (list row) :=
  found <- os_path_exists path ;;
  if negb found then raise (IOError (lit "Contacts file not found: " ++ path))
  else f <- open_csv_read path ;; list_DictReader f.

Definition run {A : Type} (m : IO A) (fs : filesystem) : (exn + A) * list event :=
  m fs [].

(** The pattern matches at the head of the subject. *)
Definition matches (r : regex) (b : bool) (s : str) : Prop :=
  match_at r b s <> None.

(* ================================================================== *)
(** ** What the specification says, where it differs from the code *)

Section Claimed.
Context {U : Unicode}.

(** The pattern of [is_valid_email] without its end anchor. *)
Definition email_prefix_pattern : regex :=
  [Bol; Many1 not_at_or_space; One (is_char 64%N); Many1 not_at_or_space;
   One (is_char 46%N); Many1 not_at_or_space].

(** Validity as prefix matching: a valid prefix is enough. *)
Definition claimed_is_valid_email (e : str) : bool :=
  match re_match email_prefix_pattern (strip e) with
  | Some _ => true
  | None => false
  end.

(** Title case by words delimited by whitespace: the first character of a
    word upper-cased, the others lower-cased. *)
Definition claimed_clean_company (company : option str) : str :=
  let company := normalise_spaces company in
  if is_empty company then []
  else join (lit " ") (map capitalise_part (split 32%N company)).

End Claimed.

(* ================================================================== *)
(** ** Notions used in the statements and proofs *)

Section Notions.
Context {U : Unicode}.

(** Runs of whitespace replaced by one space each; [in_run] tells that the
    character before was whitespace already replaced. *)
Fixpoint squash (in_run : bool) (s : str) : str :=
  match s with
  | [] => []
  | c :: t =>
      if isspace c then (if in_run then squash true t else 32%N :: squash true t)
      else c :: squash false t
  end.

(** A string that [normalise_spaces] leaves as it is. *)
Definition normalised (s : str) : Prop := strip s = s /\ squash false s = s.

(** The characters that [clean_phone] keeps in its first pass. *)
Definition digit_or_plus (c : char) : bool := isdecimal c || (c =? 43)%N.

Definition is_letter (c : char) : bool := ascii_upper c || ascii_lower c.

(** [str.title] on ASCII: a letter is upper-cased unless a letter comes
    before it. *)
Fixpoint ascii_title (previous_is_cased : bool) (s : str) : str :=
  match s with
  | [] => []
  | c :: t => (if previous_is_cased then low c else up c) :: ascii_title (is_letter c) t
  end.

(** The character at index [i] starts a run of letters: it is the first of
    the string or the one before it is not a letter. *)
Definition starts_run (s : str) (i : nat) : bool :=
  match i with
  | 0 => true
  | S j => match nth_error s j with
           | Some p => negb (is_letter p)
           | None => true
           end
  end.

(** Two characters that the splitting and the stripping cannot tell apart. *)
Definition alike (a b : char) : Prop :=
  is_ascii b = is_ascii a /\ isspace b = isspace a
  /\ (b = 32%N <-> a = 32%N) /\ (b = 45%N <-> a = 45%N).

(** [capitalise_part] on ASCII. *)
Definition ascii_capitalise (p : str) : str :=
  match p with
  | [] => []
  | c :: t => up c :: map low t
  end.

(** The body of the loop of [clean_name] for one word. *)
Definition name_word (word : str) : str :=
  join (lit "-") (map capitalise_part (split 45%N word)).

Definition all_ascii (s : str) : Prop := Forall (fun c => is_ascii c = true) s.

(** The key under which the second loop of [main] files a record. *)
Definition key_of (c : object) : str :=
  if is_empty (email (fields c)) then noemail_key (obj_id c) else email (fields c).

Definition no_email (c : object) : bool := is_empty (email (fields c)).

(** A record that [clean_contact] built. *)
Definition cleaned (c : contact) : Prop := exists r, c = clean_contact r.

End Notions.

(** Rows and records to run the program on. *)
Definition mk_row (n e p c : string) : row :=
  [(lit "name", Some (lit n)); (lit "email", Some (lit e));
   (lit "phone", Some (lit p)); (lit "company", Some (lit c))].

Definition sample_first : object :=
  (1%N, clean_contact (U:=latin1) (mk_row "amy jones" " A@b.com" "" "acme ltd")).
Definition sample_tie : object :=
  (2%N, clean_contact (U:=latin1) (mk_row "amy j" "a@b.com " "" "acme")).
Definition sample_better : object :=
  (3%N, clean_contact (U:=latin1) (mk_row "amy jones" "a@B.com" "07123456789" "acme ltd")).
Definition sample_other : object :=
  (4%N, clean_contact (U:=latin1) (mk_row "bob" "bob@c.org" "" "")).
Definition sample_less : object :=
  (7%N, clean_contact (U:=latin1) (mk_row "" "a@b.com" "" "")).
Definition sample_no_email : object :=
  (5%N, clean_contact (U:=latin1) (mk_row "carol" "" "" "")).
Definition sample_no_email_again : object :=
  (6%N, clean_contact (U:=latin1) (mk_row "carol" "  " "" "")).

(** Two file systems: one without files, one with the input file. *)
Definition fs_empty : filesystem := {|
  fs_exists _ := false;
  fs_open _ _ := Some (LibraryError (lit "No such file or directory"));
  fs_rows _ := inl (LibraryError (lit "not open"))
|}.

Definition fs_sample : filesystem := {|
  fs_exists p := str_eqb p (lit "data/contacts_raw.csv");
  fs_open _ _ := None;
  fs_rows _ := inr [mk_row "amy jones" " A@b.com" "" "acme ltd";
                    mk_row "bob" "bob at c.org" "12345" ""]
|}.

Definition str_eq_dec : forall a b : str, {a = b} + {a <> b} :=
  list_eq_dec N.eq_dec.

(** The emails of the records that have one, each counted once. *)
Definition distinct_emails (cs : list object) : list str :=
  nodup str_eq_dec
    (filter (fun e => negb (is_empty e)) (map (fun c => email (fields c)) cs)).

(* ================================================================== *)
(** ** The run of [main] and notions for its properties *)

Section MainRun.
Context {U : Unicode}.

(** The data flow of [main] between the load and the writes: the first
    loop cleans and counts, the second removes the duplicates.
    [addresses] are the [id]s of the dicts that the first loop builds.  The
    result is what is written: the rows of the csv file, the counters and
    [duplicates_removed]. *)
Definition run_main (addresses : list N) (contacts : list row)
  : list contact * stats * nat :=
  let '(cleaned_contacts, s) := stats_loop contacts in
  let '(deduped, duplicates_removed) := dedupe_loop (combine addresses cleaned_contacts) in
  (map fields (dict_values deduped), s, duplicates_removed).

(** The test under which the first loop raises a counter for a record. *)
Definition counts (k : counter) (c : contact) : bool :=
  match k with
  | total => true
  | missing_name => is_empty (name c)
  | missing_email => is_empty (email c)
  | invalid_email => negb (is_empty (email c)) && negb (is_valid_email (email c))
  | missing_phone => is_empty (phone c)
  | invalid_phone => negb (is_empty (phone c)) && negb (is_valid_uk_phone (phone c))
  | missing_company => is_empty (company c)
  end.

(** [clean_name] on ASCII, character by character: a character is
    upper-cased at the start and after a hyphen or a space. *)
Fixpoint ascii_name (at_start : bool) (s : str) : str :=
  match s with
  | [] => []
  | c :: t =>
      (if at_start then up c else low c)
      :: ascii_name ((c =? 32)%N || (c =? 45)%N) t
  end.

(** The same within one word, where only a hyphen starts a part. *)
Fixpoint ascii_word (at_start : bool) (s : str) : str :=
  match s with
  | [] => []
  | c :: t => (if at_start then up c else low c) :: ascii_word (c =? 45)%N t
  end.

(** The character at index [i] starts a part of a name: it is the first of
    the string or follows a space or a hyphen. *)
Definition starts_part (s : str) (i : nat) : bool :=
  match i with
  | 0 => true
  | S j => match nth_error s j with
           | Some p => (p =? 32)%N || (p =? 45)%N
           | None => true
           end
  end.

End MainRun.

Definition str_in (k : str) (l : list str) : bool := existsb (str_eqb k) l.

(** The keys of a list in the order in which each is first seen. *)
Fixpoint first_seen (l : list str) : list str :=
  match l with
  | [] => []
  | k :: t => k :: filter (fun k' => negb (str_eqb k' k)) (first_seen t)
  end.

(** What the second loop of [main] keeps true of [deduped] and
    [duplicates_removed] once the records [seen] are read: each entry is a
    record read, filed under its key; each record read has under its key a
    record of a score not lower; and each record read has either added an
    entry or been counted as a duplicate. *)
Definition dedupe_inv (seen : list object) (st : dict object * nat) : Prop :=
  (forall k v, In (k, v) (fst st) -> k = key_of v /\ In v seen)
  /\ (forall c, In c seen ->
        exists v, dict_get (fst st) (key_of c) = Some v
                  /\ completeness_score (fields c) <= completeness_score (fields v))
  /\ length (fst st) + snd st = length seen.

Definition sample_records : list object :=
  [sample_first; sample_no_email; sample_tie; sample_no_email_again;
   sample_other; sample_better].

(** Rows for a run of [main]: a duplicate with a phone, a row without
    email, a row with bad email and phone, a row of blanks. *)
Definition sample_rows : list row :=
  [mk_row "  amy-walker   jones " " AMY@Example.COM " "+44 7700 900123" "acme ltd";
   mk_row "bob" "" "020 7946 0958" "";
   mk_row "Amy Jones" "amy@example.com" "" "";
   mk_row "carol" "carol at example" "12345" "o'neil-smith & co";
   [(lit "name", Some (lit "   ")); (lit "email", None)]].

(* ================================================================== *)
(** ** Facts about the runtime *)

(** Case analysis on the comparisons of a goal about character codes. *)
Ltac code_cases :=
  repeat (match goal with
          | H : context [(?a <=? ?b)%N] |- _ => destruct (N.leb_spec a b)
          | H : context [(?a <? ?b)%N] |- _ => destruct (N.ltb_spec a b)
          | H : context [(?a =? ?b)%N] |- _ => destruct (N.eqb_spec a b)
          | |- context [(?a <=? ?b)%N] => destruct (N.leb_spec a b)
          | |- context [(?a <? ?b)%N] => destruct (N.ltb_spec a b)
          | |- context [(?a =? ?b)%N] => destruct (N.eqb_spec a b)
          end; cbn [andb orb negb] in *);
  try reflexivity; try discriminate; try lia.


Lemma str_eqb_eq (a b : str) : str_eqb a b = true <-> a = b.
Proof.
  revert b; induction a as [|x a IH]; intros [|y b]; simpl; split;
    try congruence; try easy.
  - rewrite andb_true_iff, N.eqb_eq, IH. intros [-> ->]; reflexivity.
  - intros [= -> ->]. rewrite N.eqb_refl. apply IH. reflexivity.
Qed.

Lemma str_eqb_refl (a : str) : str_eqb a a = true.
Proof. apply str_eqb_eq; reflexivity. Qed.

Lemma str_eqb_neq (a b : str) : str_eqb a b = false <-> a <> b.
Proof.
  rewrite <- str_eqb_eq. destruct (str_eqb a b); split; congruence.
Qed.

Section StripFacts.
Context {U : Unicode}.

Lemma rstrip_app_last (s : str) (c : char) :
  isspace c = false -> rstrip (s ++ [c]) = s ++ [c].
Proof.
  intros Hc. induction s as [|x s IH]; simpl.
  - rewrite Hc. reflexivity.
  - rewrite IH. destruct (s ++ [c]) eqn:E; [destruct s; discriminate|reflexivity].
Qed.

Lemma rstrip_last (s t : str) (c : char) :
  rstrip s = t ++ [c] -> isspace c = false.
Proof.
  revert t. induction s as [|x s IH]; simpl; intros t H.
  - destruct t; discriminate.
  - destruct (rstrip s) as [|y r] eqn:E.
    + destruct (isspace x) eqn:Hx.
      * destruct t; discriminate.
      * destruct t as [|z [|]]; simpl in H; try discriminate.
        injection H as <-. exact Hx.
    + destruct t as [|z t]; simpl in H.
      * discriminate.
      * injection H as _ H. apply (IH t). exact H.
Qed.

Lemma rstrip_head (c : char) (s : str) :
  isspace c = false -> exists t, rstrip (c :: s) = c :: t.
Proof.
  intros Hc. simpl. destruct (rstrip s); [rewrite Hc|]; eauto.
Qed.

Lemma lstrip_head (s t : str) (c : char) :
  lstrip s = c :: t -> isspace c = false.
Proof.
  induction s as [|x s IH]; simpl; [discriminate|].
  destruct (isspace x) eqn:Hx; [exact IH|].
  intros [= <- _]. exact Hx.
Qed.

(** A stripped string neither starts nor ends with a whitespace character. *)
Lemma strip_head (s t : str) (c : char) :
  strip s = c :: t -> isspace c = false.
Proof.
  unfold strip. destruct (lstrip s) as [|x r] eqn:E; simpl; [discriminate|].
  pose proof (lstrip_head _ _ _ E) as Hx.
  destruct (rstrip r); [rewrite Hx|]; intros [= <- _]; exact Hx.
Qed.

Lemma strip_last (s t : str) (c : char) :
  strip s = t ++ [c] -> isspace c = false.
Proof. apply rstrip_last. Qed.

End StripFacts.

Section RegexFacts.
Context {U : Unicode}.

Lemma match_many1_unfold (p : char -> bool) (r : regex) (b : bool) (s : str) :
  match_at (Many1 p :: r) b s =
  match s with
  | c :: t =>
      if p c then
        match match_at (Many1 p :: r) false t with
        | Some e => Some e
        | None => match_at r false t
        end
      else None
  | [] => None
  end.
Proof. destruct s; reflexivity. Qed.

(** A run matches when some non-empty prefix is in the class and the rest
    of the pattern matches what follows. *)
Lemma matches_many1 (p : char -> bool) (r : regex) (b : bool) (s : str) :
  matches (Many1 p :: r) b s <->
  exists pre rest, s = pre ++ rest /\ pre <> [] /\ forallb p pre = true
                   /\ matches r false rest.
Proof.
  unfold matches. revert b. induction s as [|c t IH]; intro b;
    rewrite match_many1_unfold.
  - split; [congruence|]. intros (pre & rest & E & Hne & _).
    destruct pre; [congruence|discriminate].
  - destruct (p c) eqn:Hc.
    + split.
      * intros H. destruct (match_at (Many1 p :: r) false t) eqn:E.
        -- destruct (proj1 (IH false)) as (pre & rest & -> & _ & Hp & Hr);
             [congruence|].
           exists (c :: pre), rest. simpl. rewrite Hc, Hp. repeat split; congruence.
        -- exists [c], t. simpl. rewrite Hc. repeat split; congruence.
      * intros (pre & rest & E & Hne & Hp & Hr).
        destruct pre as [|x pre]; [congruence|]. injection E as <- ->.
        destruct (match_at (Many1 p :: r) false (pre ++ rest)) eqn:E; [congruence|].
        destruct pre as [|y pre]; [exact Hr|].
        exfalso. simpl in Hp. apply andb_true_iff in Hp as [_ Hp].
        apply (proj2 (IH false)); [|exact E].
        exists (y :: pre), rest. repeat split; simpl; congruence.
    + split; [congruence|]. intros (pre & rest & E & Hne & Hp & _).
      destruct pre as [|x pre]; [congruence|]. injection E as <- ->.
      simpl in Hp. rewrite Hc in Hp. discriminate.
Qed.

Lemma matches_one (p : char -> bool) (r : regex) (b : bool) (s : str) :
  matches (One p :: r) b s <->
  exists c t, s = c :: t /\ p c = true /\ matches r false t.
Proof.
  unfold matches. simpl. destruct s as [|c t].
  - split; [congruence|]. intros (? & ? & ? & _). discriminate.
  - destruct (p c) eqn:Hc.
    + split; [eauto|]. intros (? & ? & [= <- <-] & _ & H). exact H.
    + split; [congruence|]. intros (? & ? & [= <- <-] & H & _). congruence.
Qed.

Lemma matches_eol (b : bool) (s : str) :
  matches [Eol] b s <-> s = [] \/ s = [10%N].
Proof.
  unfold matches. simpl. destruct s as [|c [|d t]]; simpl.
  - split; [auto|congruence].
  - destruct (N.eqb_spec c 10).
    + subst. split; [auto|congruence].
    + split; [congruence|]. intros [H|H]; congruence.
  - split; [congruence|]. intros [H|H]; discriminate.
Qed.

Lemma matches_bol (r : regex) (s : str) :
  matches (Bol :: r) true s <-> matches r true s.
Proof. reflexivity. Qed.

Lemma matches_nil (b : bool) (s : str) : matches [] b s.
Proof. unfold matches. simpl. congruence. Qed.

End RegexFacts.

(* ================================================================== *)
(** ** C1: validity of an email *)

Section EmailValidity.
Context {U : Unicode}.

Lemma not_at_or_space_spec (l : str) :
  forallb not_at_or_space l = true <->
  Forall (fun c => c <> 64%N /\ isspace c = false) l.
Proof.
  rewrite forallb_forall, Forall_forall. unfold not_at_or_space.
  split; intros H c Hc; specialize (H c Hc).
  - apply negb_true_iff, orb_false_iff in H as [H1 H2].
    apply N.eqb_neq in H1. auto.
  - destruct H as [H1 H2]. apply N.eqb_neq in H1. rewrite H1, H2. reflexivity.
Qed.

Lemma matches_email_pattern (s : str) :
  matches email_pattern true s <->
  exists l d t x,
    s = l ++ 64%N :: d ++ 46%N :: t ++ x
    /\ l <> [] /\ d <> [] /\ t <> []
    /\ forallb not_at_or_space l = true
    /\ forallb not_at_or_space d = true
    /\ forallb not_at_or_space t = true
    /\ (x = [] \/ x = [10%N]).
Proof.
  unfold email_pattern. rewrite matches_bol, matches_many1. split.
  - intros (l & r1 & -> & Hl & Pl & H).
    apply matches_one in H as (c & r2 & -> & Hc & H). apply N.eqb_eq in Hc as ->.
    apply matches_many1 in H as (d & r3 & -> & Hd & Pd & H).
    apply matches_one in H as (c & r4 & -> & Hc & H). apply N.eqb_eq in Hc as ->.
    apply matches_many1 in H as (t & x & -> & Ht & Pt & H).
    apply matches_eol in H. exists l, d, t, x. repeat split; assumption.
  - intros (l & d & t & x & -> & Hl & Hd & Ht & Pl & Pd & Pt & Hx).
    exists l, (64%N :: d ++ 46%N :: t ++ x). repeat split; try assumption.
    apply matches_one. exists 64%N, (d ++ 46%N :: t ++ x). repeat split.
    apply matches_many1. exists d, (46%N :: t ++ x). repeat split; try assumption.
    apply matches_one. exists 46%N, (t ++ x). repeat split.
    apply matches_many1. exists t, x. repeat split; try assumption.
    apply matches_eol. exact Hx.
Qed.

(** C1, as the code has it: [is_valid_email] holds exactly when the whole
    stripped string is a run of characters other than [@] and whitespace,
    an [@], a second such run, a dot and a third such run; the pattern is
    anchored at both ends, so nothing may follow the third run. *)
Theorem is_valid_email_whole_string (e : str) :
  is_valid_email e = true <->
  exists l d t,
    strip e = l ++ [64%N] ++ d ++ [46%N] ++ t
    /\ l <> [] /\ d <> [] /\ t <> []
    /\ Forall (fun c => c <> 64%N /\ isspace c = false) l
    /\ Forall (fun c => c <> 64%N /\ isspace c = false) d
    /\ Forall (fun c => c <> 64%N /\ isspace c = false) t.
Proof.
  unfold is_valid_email, re_match.
  assert (E : (match match_at email_pattern true (strip e) with
               | Some _ => true | None => false end) = true
              <-> matches email_pattern true (strip e)).
  { unfold matches. destruct (match_at email_pattern true (strip e));
      split; congruence. }
  rewrite E, matches_email_pattern. clear E. split.
  - intros (l & d & t & x & E & Hl & Hd & Ht & Pl & Pd & Pt & [->| ->]).
    + rewrite app_nil_r in E. exists l, d, t.
      rewrite <- !not_at_or_space_spec. repeat split; assumption.
    + exfalso.
      assert (H : isspace 10%N = false).
      { apply (strip_last e (l ++ 64%N :: d ++ 46%N :: t)).
        rewrite E. rewrite <- !app_assoc. simpl. rewrite <- !app_assoc.
        reflexivity. }
      discriminate H.
  - intros (l & d & t & E & Hl & Hd & Ht & Pl & Pd & Pt).
    exists l, d, t, []. rewrite app_nil_r, !not_at_or_space_spec.
    repeat split; auto.
Qed.

End EmailValidity.

(** C1, as the specification has it, fails: ["a@b.c@"] has the valid prefix
    ["a@b.c"] and is not a valid email. *)
Lemma is_valid_email_no_prefix_semantics :
  claimed_is_valid_email (U:=latin1) (lit "a@b.c@") = true
  /\ is_valid_email (U:=latin1) (lit "a@b.c@") = false.
Proof. split; vm_compute; reflexivity. Qed.

(* ================================================================== *)
(** ** Facts about [normalise_spaces] *)

Section NormaliseFacts.
Context {U : Unicode}.

Lemma match_many1_space (b : bool) (c : char) (t : str) :
  match_at [Many1 isspace] b (c :: t) = if isspace c then Some (lstrip t) else None.
Proof.
  revert b c. induction t as [|d t IH]; intros b c.
  - simpl. destruct (isspace c); reflexivity.
  - rewrite match_many1_unfold. destruct (isspace c) eqn:Hc; [|reflexivity].
    rewrite IH. simpl. destruct (isspace d); reflexivity.
Qed.

Lemma lstrip_length (s : str) : length (lstrip s) <= length s.
Proof.
  induction s as [|c t IH]; simpl; [lia|]. destruct (isspace c); simpl; lia.
Qed.

Lemma squash_true_lstrip (s : str) : squash true s = squash false (lstrip s).
Proof.
  induction s as [|c t IH]; simpl; [reflexivity|].
  destruct (isspace c) eqn:Hc; [exact IH|]. simpl. rewrite Hc. reflexivity.
Qed.

Lemma sub_from_spaces (n : nat) (b : bool) (s : str) :
  length s < n -> sub_from n [Many1 isspace] (lit " ") b s = squash false s.
Proof.
  revert b s. induction n as [|n IH]; intros b s Hn; [lia|].
  destruct s as [|c t]; [reflexivity|].
  cbn [sub_from]. rewrite match_many1_space. simpl in Hn.
  destruct (isspace c) eqn:Hc.
  - pose proof (lstrip_length t) as Hl.
    replace (Nat.ltb (length (lstrip t)) (length (c :: t))) with true
      by (symmetry; apply Nat.ltb_lt; simpl; lia).
    rewrite IH by lia. simpl. rewrite Hc, squash_true_lstrip. reflexivity.
  - rewrite IH by lia. simpl. rewrite Hc. reflexivity.
Qed.

Lemma sub_from_class (p : char -> bool) (n : nat) (b : bool) (s : str) :
  length s < n -> sub_from n [One p] [] b s = filter (fun c => negb (p c)) s.
Proof.
  revert b s. induction n as [|n IH]; intros b s Hn; [lia|].
  destruct s as [|c t]; [reflexivity|].
  cbn [sub_from match_at]. simpl in Hn. destruct (p c) eqn:Hc; simpl; rewrite Hc; simpl.
  - replace (Nat.ltb (length t) (S (length t))) with true
      by (symmetry; apply Nat.ltb_lt; lia).
    apply IH. lia.
  - rewrite IH by lia. reflexivity.
Qed.

Lemma normalise_spaces_squash (text : option str) :
  normalise_spaces text = squash false (strip (or_empty text)).
Proof. unfold normalise_spaces, re_sub. apply sub_from_spaces. lia. Qed.

Lemma re_sub_class (p : char -> bool) (s : str) :
  re_sub [One p] [] s = filter (fun c => negb (p c)) s.
Proof. unfold re_sub. apply sub_from_class. lia. Qed.

(** Squashing twice is squashing once. *)
Lemma squash_squash (s : str) :
  squash false (squash false s) = squash false s
  /\ squash true (squash true s) = squash true s
  /\ squash false (squash true s) = squash true s.
Proof.
  induction s as [|c t (A & B & C)]; [auto|]. simpl.
  destruct (isspace c) eqn:Hc; simpl.
  - change (isspace 32%N) with true. cbv iota. rewrite B. auto.
  - rewrite Hc, A. auto.
Qed.

Lemma squash_app_last (b : bool) (s : str) (c : char) :
  isspace c = false -> squash b (s ++ [c]) = squash b s ++ [c].
Proof.
  intros Hc. revert b. induction s as [|x s IH]; intro b; simpl.
  - rewrite Hc. reflexivity.
  - destruct (isspace x); [destruct b|]; simpl; rewrite IH; reflexivity.
Qed.

Lemma lstrip_fixed (c : char) (t : str) : isspace c = false -> lstrip (c :: t) = c :: t.
Proof. intros Hc. simpl. rewrite Hc. reflexivity. Qed.

(** A string is stripped when its ends are not whitespace. *)
Lemma strip_fixed (s : str) :
  strip s = s <->
  s = [] \/ exists c t r d, s = c :: t /\ s = r ++ [d]
                           /\ isspace c = false /\ isspace d = false.
Proof.
  split.
  - intros E. destruct s as [|c t]; [auto|right].
    destruct (exists_last (l:=c :: t)) as (r & d & Hr); [discriminate|].
    exists c, t, r, d. repeat split; [exact Hr| |].
    + apply (strip_head _ _ _ E).
    + rewrite Hr in E. apply (strip_last _ _ _ E).
  - intros [->|(c & t & r & d & -> & Hd & Hc & Hs)]; [reflexivity|].
    unfold strip. rewrite lstrip_fixed by exact Hc. rewrite Hd.
    apply rstrip_app_last. exact Hs.
Qed.

Lemma squash_head (c : char) (t : str) :
  isspace c = false -> squash false (c :: t) = c :: squash false t.
Proof. intros Hc. simpl. rewrite Hc. reflexivity. Qed.

Lemma normalised_squash_strip (s : str) : normalised (squash false (strip s)).
Proof.
  split; [|apply squash_squash].
  apply strip_fixed.
  destruct (strip s) as [|c t] eqn:E; [auto|right].
  pose proof (strip_head _ _ _ E) as Hc.
  destruct (exists_last (l:=c :: t)) as (r & d & Hr); [discriminate|].
  assert (Hd : isspace d = false) by (rewrite Hr in E; apply (strip_last _ _ _ E)).
  exists c, (squash false t), (squash false r), d.
  repeat split; try assumption.
  - apply squash_head. exact Hc.
  - rewrite Hr. apply squash_app_last. exact Hd.
Qed.

Lemma normalised_normalise_spaces (text : option str) :
  normalised (normalise_spaces text).
Proof. rewrite normalise_spaces_squash. apply normalised_squash_strip. Qed.

Lemma normalise_spaces_fixed (s : str) :
  normalised s <-> normalise_spaces (Some s) = s.
Proof.
  split.
  - intros [E1 E2]. rewrite normalise_spaces_squash. simpl. rewrite E1. exact E2.
  - intros E. rewrite <- E. apply normalised_normalise_spaces.
Qed.

Lemma normalise_spaces_idem (text : option str) :
  normalise_spaces (Some (normalise_spaces text)) = normalise_spaces text.
Proof. apply normalise_spaces_fixed, normalised_normalise_spaces. Qed.

End NormaliseFacts.

(* ================================================================== *)
(** ** C3: phone numbers *)

Section Phone.
Context {U : Unicode}.

Lemma clean_phone_unfold (phone : option str) :
  clean_phone phone =
  let kept := filter digit_or_plus (normalise_spaces phone) in
  filter isdecimal
    (if startswith kept (lit "+44") then lit "0" ++ skipn 3 kept else kept).
Proof.
  unfold clean_phone. rewrite !re_sub_class. cbv zeta.
  assert (E1 : forall s, filter (fun c => negb (not_digit_or_plus c)) s
                         = filter digit_or_plus s).
  { intro s. apply filter_ext. intro c. unfold not_digit_or_plus, digit_or_plus.
    apply negb_involutive. }
  assert (E2 : forall s, filter (fun c => negb (not_digit c)) s = filter isdecimal s).
  { intro s. apply filter_ext. intro c. apply negb_involutive. }
  rewrite E1, E2. reflexivity.
Qed.

Lemma clean_phone_digits (phone : option str) :
  Forall (fun c => isdecimal c = true) (clean_phone phone).
Proof.
  rewrite clean_phone_unfold. cbv zeta. apply Forall_forall. intros c Hc.
  apply filter_In in Hc. apply Hc.
Qed.

(** In the database no decimal digit is a whitespace character. *)
Hypothesis digits_not_space :
  forall c, (128 <= c)%N -> uni_isdecimal c = true -> uni_isspace c = false.

Lemma space_not_kept (c : char) : isspace c = true -> digit_or_plus c = false.
Proof.
  unfold isspace, digit_or_plus, isdecimal, is_ascii.
  destruct (N.ltb_spec c 128) as [Hlt|Hge].
  - unfold ascii_space, ascii_digit. intros H.
    destruct (N.leb_spec 48 c), (N.leb_spec c 57), (N.eqb_spec c 43); simpl;
      try reflexivity; exfalso;
      destruct (N.leb_spec 9 c), (N.leb_spec c 13), (N.leb_spec 28 c),
        (N.leb_spec c 31), (N.eqb_spec c 32); simpl in H; try discriminate; lia.
  - intros H. destruct (uni_isdecimal c) eqn:Hd.
    + rewrite (digits_not_space c Hge Hd) in H. discriminate.
    + simpl. apply N.eqb_neq. lia.
Qed.

Lemma filter_kept_lstrip (s : str) :
  filter digit_or_plus (lstrip s) = filter digit_or_plus s.
Proof.
  induction s as [|c t IH]; simpl; [reflexivity|].
  destruct (isspace c) eqn:Hc; [|reflexivity].
  rewrite (space_not_kept c Hc). exact IH.
Qed.

Lemma filter_kept_rstrip (s : str) :
  filter digit_or_plus (rstrip s) = filter digit_or_plus s.
Proof.
  induction s as [|c t IH]; simpl; [reflexivity|].
  destruct (rstrip t) as [|d r] eqn:E.
  - simpl in IH. rewrite <- IH. destruct (isspace c) eqn:Hc; [|reflexivity].
    rewrite (space_not_kept c Hc). reflexivity.
  - rewrite <- IH. reflexivity.
Qed.

Lemma filter_kept_squash (b : bool) (s : str) :
  filter digit_or_plus (squash b s) = filter digit_or_plus s.
Proof.
  revert b. induction s as [|c t IH]; intro b; simpl; [reflexivity|].
  destruct (isspace c) eqn:Hc.
  - rewrite (space_not_kept c Hc). destruct b; simpl; apply IH.
  - simpl. rewrite IH. reflexivity.
Qed.

Lemma filter_kept_normalise_spaces (text : option str) :
  filter digit_or_plus (normalise_spaces text) = filter digit_or_plus (or_empty text).
Proof.
  rewrite normalise_spaces_squash, filter_kept_squash. unfold strip.
  rewrite filter_kept_rstrip. apply filter_kept_lstrip.
Qed.

(** C3: [clean_phone] keeps the digits and the [+] signs of its input; when
    what is kept starts with [+44] the result is a [0] and the digits after
    that prefix, and otherwise, as for an input that starts [0044], the
    digits kept as they are; the result is made of digits only. *)
Theorem clean_phone_uk_prefix (phone : str) :
  let kept := filter digit_or_plus phone in
  (startswith kept (lit "+44") = true ->
     clean_phone (Some phone) = lit "0" ++ filter isdecimal (skipn 3 kept))
  /\ (startswith kept (lit "+44") = false ->
     clean_phone (Some phone) = filter isdecimal kept)
  /\ (startswith kept (lit "0044") = true ->
     clean_phone (Some phone) = filter isdecimal kept
     /\ startswith (clean_phone (Some phone)) (lit "0044") = true)
  /\ Forall (fun c => isdecimal c = true) (clean_phone (Some phone))
  /\ clean_phone (Some (lit "+44 7700 900123")) = lit "07700900123"
  /\ clean_phone (Some (lit "0044 7700 900123")) = lit "00447700900123".
Proof.
  intro kept.
  assert (E : clean_phone (Some phone) =
              filter isdecimal
                (if startswith kept (lit "+44") then lit "0" ++ skipn 3 kept else kept)).
  { rewrite clean_phone_unfold. cbv zeta. rewrite filter_kept_normalise_spaces.
    reflexivity. }
  assert (Hno : startswith kept (lit "+44") = false ->
                clean_phone (Some phone) = filter isdecimal kept).
  { intros H. rewrite E, H. reflexivity. }
  split; [|split; [|split; [|split; [|split]]]].
  - intros H. rewrite E, H. reflexivity.
  - exact Hno.
  - intros H.
    assert (H' : startswith kept (lit "+44") = false).
    { destruct kept as [|c k]; [discriminate|].
      simpl in H |- *. apply andb_true_iff in H as [H _]. apply N.eqb_eq in H as ->.
      reflexivity. }
    split; [exact (Hno H')|]. rewrite (Hno H').
    destruct kept as [|c1 [|c2 [|c3 [|c4 k]]]]; simpl in H; try discriminate;
      try (rewrite ?andb_false_r in H; discriminate).
    repeat (apply andb_true_iff in H as [H0 H]; apply N.eqb_eq in H0; subst).
    vm_compute. reflexivity.
  - apply clean_phone_digits.
  - vm_compute. reflexivity.
  - vm_compute. reflexivity.
Qed.

End Phone.

(** C3 on a London number. *)
Lemma clean_phone_uk_prefix_witness :
  (forall c, (128 <= c)%N ->
             uni_isdecimal (Unicode:=latin1) c = true ->
             uni_isspace (Unicode:=latin1) c = false)
  /\ clean_phone (U:=latin1) (Some (lit "+44 (0)20 7946-0958"))
     = lit "0" ++ filter (isdecimal (U:=latin1))
                    (skipn 3 (filter (digit_or_plus (U:=latin1))
                                     (lit "+44 (0)20 7946-0958"))).
Proof.
  assert (H : forall c, (128 <= c)%N ->
             uni_isdecimal (Unicode:=latin1) c = true ->
             uni_isspace (Unicode:=latin1) c = false)
    by (intros c _ H; discriminate H).
  split; [exact H|].
  apply (clean_phone_uk_prefix (U:=latin1) H (lit "+44 (0)20 7946-0958")).
  vm_compute. reflexivity.
Defined.

(* ================================================================== *)
(** ** The program on ASCII strings *)

Section AsciiFacts.
Context {U : Unicode}.

Lemma up_ascii (c : char) : is_ascii c = true -> is_ascii (up c) = true.
Proof. unfold is_ascii, up, ascii_lower. intro H. code_cases. Qed.

Lemma low_ascii (c : char) : is_ascii c = true -> is_ascii (low c) = true.
Proof. unfold is_ascii, low, ascii_upper. intro H. code_cases. Qed.

Lemma up_up (c : char) : up (up c) = up c.
Proof. unfold up, ascii_lower. code_cases. Qed.

Lemma low_low (c : char) : low (low c) = low c.
Proof. unfold low, ascii_upper. code_cases. Qed.

Lemma is_letter_up (c : char) : is_letter (up c) = is_letter c.
Proof. unfold is_letter, up, ascii_lower, ascii_upper. code_cases. Qed.

Lemma is_letter_low (c : char) : is_letter (low c) = is_letter c.
Proof. unfold is_letter, low, ascii_lower, ascii_upper. code_cases. Qed.

Lemma up_not_letter (c : char) : is_letter c = false -> up c = c.
Proof. unfold is_letter, up, ascii_lower, ascii_upper. intro H. code_cases. Qed.

Lemma low_not_letter (c : char) : is_letter c = false -> low c = c.
Proof. unfold is_letter, low, ascii_lower, ascii_upper. intro H. code_cases. Qed.

Lemma alike_up (c : char) : is_ascii c = true -> alike c (up c).
Proof.
  intro H. unfold alike. rewrite (up_ascii c H), H. unfold isspace. rewrite (up_ascii c H), H.
  unfold is_ascii in H. unfold up, ascii_lower, ascii_space.
  repeat split; intros; code_cases.
Qed.

Lemma alike_low (c : char) : is_ascii c = true -> alike c (low c).
Proof.
  intro H. unfold alike. rewrite (low_ascii c H), H. unfold isspace. rewrite (low_ascii c H), H.
  unfold is_ascii in H. unfold low, ascii_upper, ascii_space.
  repeat split; intros; code_cases.
Qed.

Lemma alike_refl (c : char) : alike c c.
Proof. unfold alike. tauto. Qed.

Lemma str_upper_ascii (s : str) : all_ascii s -> str_upper s = map up s.
Proof.
  unfold str_upper. induction 1 as [|c t Hc _ IH]; cbn [flat_map map]; [reflexivity|].
  rewrite IH. unfold toupper. rewrite Hc. reflexivity.
Qed.

Lemma lower_from_ascii (before s : str) : all_ascii s -> lower_from before s = map low s.
Proof.
  intro H. revert before. induction H as [|c t Hc _ IH]; intros pre;
    cbn [lower_from map]; [reflexivity|].
  rewrite IH. unfold tolower. rewrite Hc. reflexivity.
Qed.

Lemma str_lower_ascii (s : str) : all_ascii s -> str_lower s = map low s.
Proof. apply lower_from_ascii. Qed.

Lemma title_from_ascii (before : str) (st : bool) (s : str) :
  all_ascii s -> title_from before st s = ascii_title st s.
Proof.
  intro H. revert before st. induction H as [|c t Hc _ IH]; intros pre st;
    cbn [title_from ascii_title]; [reflexivity|].
  rewrite IH. unfold tolower, totitle, iscased, is_letter. rewrite Hc.
  destruct st; reflexivity.
Qed.

Lemma capitalise_part_ascii (p : str) :
  all_ascii p -> capitalise_part p = ascii_capitalise p.
Proof.
  intro H. destruct H as [|c t Hc Ht]; [reflexivity|].
  unfold capitalise_part. simpl.
  rewrite str_lower_ascii by exact Ht. unfold toupper. rewrite Hc. reflexivity.
Qed.

Lemma all_ascii_map (f : char -> char) (s : str) :
  (forall c, is_ascii c = true -> is_ascii (f c) = true) ->
  all_ascii s -> all_ascii (map f s).
Proof.
  intros Hf H. induction H; simpl; constructor; auto.
Qed.

Lemma all_ascii_capitalise (p : str) : all_ascii p -> all_ascii (ascii_capitalise p).
Proof.
  intro H. destruct H as [|c t Hc Ht]; simpl; constructor.
  - apply up_ascii, Hc.
  - apply all_ascii_map; [apply low_ascii|exact Ht].
Qed.

Lemma all_ascii_title (st : bool) (s : str) : all_ascii s -> all_ascii (ascii_title st s).
Proof.
  intro H. revert st. induction H as [|c t Hc _ IH]; intro st; simpl; constructor.
  - destruct st; [apply low_ascii|apply up_ascii]; exact Hc.
  - apply IH.
Qed.

Lemma all_ascii_lstrip (s : str) : all_ascii s -> all_ascii (lstrip s).
Proof.
  induction 1 as [|c t Hc Ht IH]; simpl; [constructor|].
  destruct (isspace c); [exact IH|constructor; assumption].
Qed.

Lemma all_ascii_rstrip (s : str) : all_ascii s -> all_ascii (rstrip s).
Proof.
  induction 1 as [|c t Hc Ht IH]; simpl; [constructor|].
  destruct (rstrip t).
  - destruct (isspace c); constructor; [exact Hc|constructor].
  - constructor; assumption.
Qed.

Lemma all_ascii_squash (b : bool) (s : str) : all_ascii s -> all_ascii (squash b s).
Proof.
  intro H. revert b. induction H as [|c t Hc Ht IH]; intro b; simpl; [constructor|].
  destruct (isspace c); [destruct b|]; repeat (constructor; auto); apply IH.
Qed.

Lemma all_ascii_normalise_spaces (s : str) :
  all_ascii s -> all_ascii (normalise_spaces (Some s)).
Proof.
  intro H. rewrite normalise_spaces_squash. simpl.
  apply all_ascii_squash, all_ascii_rstrip, all_ascii_lstrip, H.
Qed.

(** *** Strings alike character by character *)

Lemma alike_map (f : char -> char) (s : str) :
  (forall c, is_ascii c = true -> alike c (f c)) ->
  all_ascii s -> Forall2 alike s (map f s).
Proof.
  intros Hf H. induction H; simpl; constructor; auto.
Qed.

Lemma alike_capitalise (p : str) : all_ascii p -> Forall2 alike p (ascii_capitalise p).
Proof.
  intro H. destruct H as [|c t Hc Ht]; simpl; constructor.
  - apply alike_up, Hc.
  - apply alike_map; [apply alike_low|exact Ht].
Qed.

Lemma alike_title (st : bool) (s : str) : all_ascii s -> Forall2 alike s (ascii_title st s).
Proof.
  intro H. revert st. induction H as [|c t Hc _ IH]; intro st; simpl; constructor.
  - destruct st; [apply alike_low|apply alike_up]; exact Hc.
  - apply IH.
Qed.

Lemma alike_all_ascii (a b : str) : Forall2 alike a b -> all_ascii a -> all_ascii b.
Proof.
  unfold all_ascii. induction 1 as [|x y a b Hxy _ IH]; intro H; [constructor|].
  inversion H as [|? ? Hx Ha]; subst. destruct Hxy as (Hx' & _).
  constructor; [rewrite Hx'; exact Hx|exact (IH Ha)].
Qed.

Lemma squash_length (b : bool) (s : str) : length (squash b s) <= length s.
Proof.
  revert b. induction s as [|c t IH]; intro b; simpl; [lia|].
  pose proof (IH true). pose proof (IH false).
  destruct (isspace c); [destruct b|]; simpl; lia.
Qed.

Lemma alike_squash_fixed (a b : str) :
  Forall2 alike a b -> forall p, squash p a = a -> squash p b = b.
Proof.
  induction 1 as [|x y a b (_ & Hs & H32 & _) _ IH]; intros p E; [reflexivity|].
  simpl in E |- *. rewrite Hs. destruct (isspace x) eqn:Hx.
  - destruct p.
    + exfalso. pose proof (squash_length true a) as Hl. rewrite E in Hl. simpl in Hl. lia.
    + injection E as E1 E2. rewrite (IH true E2).
      f_equal. symmetry. apply H32. auto.
  - injection E as E. rewrite (IH false E). reflexivity.
Qed.

Lemma alike_strip_fixed (a b : str) :
  Forall2 alike a b -> strip a = a -> strip b = b.
Proof.
  intros H E. apply strip_fixed in E. apply strip_fixed.
  destruct E as [->|(c & t & r & d & -> & Hr & Hc & Hd)].
  - inversion H. auto.
  - right. pose proof H as H'. rewrite Hr in H'.
    apply Forall2_app_inv_l in H' as (r' & l' & Hr' & Hd' & ->).
    inversion Hd' as [|d0 d' l0 l1 (_ & Hsd & _) Hnil]; subst. inversion Hnil; subst.
    inversion H as [|c0 c' t0 t' (_ & Hsc & _) Ht E1 E2]; subst.
    exists c', t', r', d'. repeat split; congruence.
Qed.

(** Strings alike are normalised together. *)
Lemma alike_normalised (a b : str) :
  Forall2 alike a b -> normalised a -> normalised b.
Proof.
  intros H [E1 E2]. split.
  - apply (alike_strip_fixed a b H E1).
  - apply (alike_squash_fixed a b H false E2).
Qed.

Lemma alike_is_empty (a b : str) : Forall2 alike a b -> is_empty b = is_empty a.
Proof. destruct 1; reflexivity. Qed.

Lemma ascii_title_idem (st : bool) (s : str) :
  ascii_title st (ascii_title st s) = ascii_title st s.
Proof.
  revert st. induction s as [|c t IH]; intro st; simpl; [reflexivity|].
  destruct st.
  - rewrite low_low, is_letter_low, IH. reflexivity.
  - rewrite up_up, is_letter_up, IH. reflexivity.
Qed.

Lemma ascii_title_length (st : bool) (s : str) : length (ascii_title st s) = length s.
Proof. revert st. induction s; intro st; simpl; auto. Qed.

Lemma ascii_title_nth (st : bool) (s : str) (i : nat) (c : char) :
  nth_error s i = Some c ->
  nth_error (ascii_title st s) i
  = Some (if match i with 0 => negb st | S _ => starts_run s i end
          then up c else low c).
Proof.
  revert st i. induction s as [|x t IH]; intros st i H; [destruct i; discriminate|].
  destruct i as [|j]; simpl in H |- *.
  - injection H as ->. destruct st; reflexivity.
  - rewrite (IH _ _ H). destruct j as [|k]; reflexivity.
Qed.

Lemma clean_email_ascii (s : str) :
  all_ascii s -> clean_email (Some s) = map low (normalise_spaces (Some s)).
Proof.
  intro H. unfold clean_email. apply str_lower_ascii, all_ascii_normalise_spaces, H.
Qed.

Lemma clean_company_ascii (s : str) :
  all_ascii s -> clean_company (Some s) = ascii_title false (normalise_spaces (Some s)).
Proof.
  intro H. unfold clean_company, str_title.
  rewrite title_from_ascii by (apply all_ascii_normalise_spaces, H).
  destruct (normalise_spaces (Some s)); reflexivity.
Qed.

End AsciiFacts.

(* ================================================================== *)
(** ** Splitting and joining *)

Section SplitJoin.
Context {U : Unicode}.

Lemma split_not_nil (sep : char) (s : str) : split sep s <> [].
Proof.
  induction s as [|c t IH]; simpl; [discriminate|].
  destruct (c =? sep)%N; [discriminate|]. destruct (split sep t); discriminate.
Qed.

Lemma join_cons (sep w : str) (ws : list str) :
  ws <> [] -> join sep (w :: ws) = w ++ sep ++ join sep ws.
Proof. destruct ws; [congruence|reflexivity]. Qed.

Lemma join_split (sep : char) (s : str) : join [sep] (split sep s) = s.
Proof.
  induction s as [|c t IH]; [reflexivity|]. simpl split.
  pose proof (split_not_nil sep t) as Hne.
  destruct (N.eqb_spec c sep) as [->|Hc].
  - rewrite join_cons by exact Hne. rewrite IH. reflexivity.
  - destruct (split sep t) as [|w ws]; [congruence|].
    destruct ws as [|w' ws].
    + simpl in IH |- *. congruence.
    + rewrite join_cons in IH |- * by discriminate. rewrite <- IH. reflexivity.
Qed.

Lemma split_no_sep (sep : char) (s : str) :
  Forall (fun w => ~ In sep w) (split sep s).
Proof.
  induction s as [|c t IH]; simpl; [constructor; [tauto|constructor]|].
  destruct (N.eqb_spec c sep) as [->|Hc].
  - constructor; [tauto|exact IH].
  - destruct (split sep t) as [|w ws]; [constructor; [simpl; intuition|constructor]|].
    inversion IH; subst. constructor; [simpl; intuition|assumption].
Qed.

Lemma split_single (sep : char) (w : str) : ~ In sep w -> split sep w = [w].
Proof.
  induction w as [|c t IH]; intro H; [reflexivity|]. simpl in H |- *.
  destruct (N.eqb_spec c sep) as [->|Hc]; [tauto|].
  rewrite IH by tauto. reflexivity.
Qed.

Lemma split_app_sep (sep : char) (w s : str) :
  ~ In sep w -> split sep (w ++ sep :: s) = w :: split sep s.
Proof.
  induction w as [|c t IH]; intro H; simpl in H |- *.
  - rewrite N.eqb_refl. reflexivity.
  - destruct (N.eqb_spec c sep) as [->|Hc]; [tauto|].
    rewrite IH by tauto. reflexivity.
Qed.

Lemma split_join (sep : char) (ws : list str) :
  ws <> [] -> Forall (fun w => ~ In sep w) ws -> split sep (join [sep] ws) = ws.
Proof.
  intros Hne H. revert Hne. induction H as [|w ws Hw Hws IH]; intro Hne;
    [destruct (Hne eq_refl)|].
  destruct ws as [|w' ws].
  - simpl. apply split_single, Hw.
  - rewrite join_cons by discriminate.
    change (split sep (w ++ sep :: join [sep] (w' :: ws)) = w :: w' :: ws).
    rewrite split_app_sep by exact Hw. rewrite IH by discriminate. reflexivity.
Qed.

Lemma all_ascii_split (sep : char) (s : str) :
  all_ascii s -> Forall all_ascii (split sep s).
Proof.
  induction 1 as [|c t Hc Ht IH]; simpl; [repeat constructor|].
  destruct (c =? sep)%N; [constructor; [constructor|exact IH]|].
  destruct (split sep t) as [|w ws]; [repeat constructor; exact Hc|].
  inversion IH; subst. constructor; [constructor; assumption|assumption].
Qed.

Lemma alike_join (sep : char) (ws ws' : list str) :
  Forall2 (Forall2 alike) ws ws' ->
  Forall2 alike (join [sep] ws) (join [sep] ws').
Proof.
  induction 1 as [|w w' ws ws' Hw Hws IH]; [constructor|].
  destruct Hws as [|v v' ws ws' Hv Hws].
  - exact Hw.
  - rewrite !join_cons by discriminate.
    apply Forall2_app; [exact Hw|]. simpl. constructor; [apply alike_refl|exact IH].
Qed.

Lemma alike_map_words (f : str -> str) (ws : list str) :
  Forall all_ascii ws ->
  (forall w, all_ascii w -> Forall2 alike w (f w)) ->
  Forall2 (Forall2 alike) ws (map f ws).
Proof. intros H Hf. induction H; simpl; constructor; auto. Qed.

Lemma alike_not_in (x : char) (a b : str) :
  x = 32%N \/ x = 45%N -> Forall2 alike a b -> ~ In x a -> ~ In x b.
Proof.
  intros Hx. induction 1 as [|c d a b (_ & _ & H32 & H45) _ IH]; simpl; [tauto|].
  intros Hn [E|Hin]; [|tauto]. apply Hn. left.
  destruct Hx; subst; [apply H32|apply H45]; reflexivity.
Qed.

Lemma alike_name_word (w : str) : all_ascii w -> Forall2 alike w (name_word w).
Proof.
  intro H. unfold name_word. change (lit "-") with [45%N].
  rewrite <- (join_split 45%N w) at 1. apply alike_join.
  apply alike_map_words; [apply all_ascii_split, H|].
  intros p Hp. rewrite capitalise_part_ascii by exact Hp. apply alike_capitalise, Hp.
Qed.

Lemma capitalise_part_idem (p : str) :
  all_ascii p -> capitalise_part (capitalise_part p) = capitalise_part p.
Proof.
  intro H. rewrite (capitalise_part_ascii p H).
  rewrite capitalise_part_ascii by (apply all_ascii_capitalise, H).
  destruct p as [|c t]; simpl; [reflexivity|]. rewrite up_up, map_map.
  f_equal. apply map_ext. intro. apply low_low.
Qed.

Lemma map_idem_words (f : str -> str) (ws : list str) :
  Forall all_ascii ws -> (forall w, all_ascii w -> f (f w) = f w) ->
  map f (map f ws) = map f ws.
Proof. intros H Hf. induction H; simpl; f_equal; auto. Qed.

Lemma name_word_idem (w : str) : all_ascii w -> name_word (name_word w) = name_word w.
Proof.
  intro H. unfold name_word at 2 3. change (lit "-") with [45%N].
  unfold name_word. change (lit "-") with [45%N].
  rewrite split_join.
  - rewrite map_idem_words; [reflexivity|apply all_ascii_split, H|].
    apply capitalise_part_idem.
  - pose proof (split_not_nil 45%N w). destruct (split 45%N w) as [|? ?];
      [destruct (H0 eq_refl)|discriminate].
  - pose proof (split_no_sep 45%N w) as Hn. pose proof (all_ascii_split 45%N w H) as Ha.
    induction Hn as [|p ps Hp _ IH]; simpl; constructor.
    + inversion Ha; subst. apply (alike_not_in 45%N p); [auto| |exact Hp].
      rewrite capitalise_part_ascii by assumption. apply alike_capitalise. assumption.
    + inversion Ha; subst. auto.
Qed.

Lemma clean_name_unfold (name : option str) :
  clean_name name =
  if is_empty (normalise_spaces name) then []
  else join [32%N] (map name_word (split 32%N (normalise_spaces name))).
Proof. reflexivity. Qed.

Lemma alike_name_words (n : str) :
  all_ascii n -> Forall2 alike n (join [32%N] (map name_word (split 32%N n))).
Proof.
  intro H. rewrite <- (join_split 32%N n) at 1. apply alike_join.
  apply alike_map_words; [apply all_ascii_split, H|]. apply alike_name_word.
Qed.

Lemma name_words_idem (n : str) :
  all_ascii n ->
  map name_word (split 32%N (join [32%N] (map name_word (split 32%N n))))
  = map name_word (split 32%N n).
Proof.
  intro H. rewrite split_join.
  - apply map_idem_words; [apply all_ascii_split, H|apply name_word_idem].
  - pose proof (split_not_nil 32%N n). destruct (split 32%N n) as [|? ?];
      [destruct (H0 eq_refl)|discriminate].
  - pose proof (split_no_sep 32%N n) as Hn. pose proof (all_ascii_split 32%N n H) as Ha.
    induction Hn as [|p ps Hp _ IH]; simpl; constructor.
    + inversion Ha; subst. apply (alike_not_in 32%N p); [auto| |exact Hp].
      apply alike_name_word. assumption.
    + inversion Ha; subst. auto.
Qed.

End SplitJoin.

(* ================================================================== *)
(** ** C2: title case of the company *)

Section Company.
Context {U : Unicode}.

(** C2, as the code has it: on a whitespace-normalised string of ASCII
    characters [clean_company] keeps the length, upper-cases the first
    character of each run of letters (the first character of the string
    and any character that follows a non-letter: a space, but also a
    hyphen, an apostrophe or a digit) and lower-cases the other
    characters; [up] and [low] leave a non-letter as it is. *)
Theorem clean_company_title_case (s : str) :
  all_ascii s ->
  normalise_spaces (Some s) = s ->
  length (clean_company (Some s)) = length s
  /\ forall i c,
       nth_error s i = Some c ->
       nth_error (clean_company (Some s)) i
       = Some (if starts_run s i then up c else low c).
Proof.
  intros Ha Hn. rewrite (clean_company_ascii s Ha), Hn. split.
  - apply ascii_title_length.
  - intros i c H. rewrite (ascii_title_nth false s i c H).
    destruct i; reflexivity.
Qed.

End Company.

(** C2 on a name with a hyphen, an apostrophe and a digit: the c after
    the hyphen is upper-cased. *)
Lemma clean_company_title_case_witness :
  all_ascii (lit "acme-corp o'neil 3m")
  /\ normalise_spaces (U:=latin1) (Some (lit "acme-corp o'neil 3m"))
     = lit "acme-corp o'neil 3m"
  /\ nth_error (clean_company (U:=latin1) (Some (lit "acme-corp o'neil 3m"))) 5
     = Some 67%N.
Proof.
  assert (Ha : all_ascii (lit "acme-corp o'neil 3m")) by (repeat constructor).
  assert (Hn : normalise_spaces (U:=latin1) (Some (lit "acme-corp o'neil 3m"))
               = lit "acme-corp o'neil 3m") by (vm_compute; reflexivity).
  split; [exact Ha|]. split; [exact Hn|].
  exact (proj2 (clean_company_title_case (U:=latin1) _ Ha Hn) 5 99%N eq_refl).
Defined.

(** C2, as the specification has it, fails: the letter after the
    apostrophe of ["o'neil"] is upper-cased. *)
Lemma clean_company_capitalises_inside_words :
  clean_company (U:=latin1) (Some (lit "o'neil")) = lit "O'Neil"
  /\ claimed_clean_company (U:=latin1) (Some (lit "o'neil")) = lit "O'neil".
Proof. split; vm_compute; reflexivity. Qed.

(* ================================================================== *)
(** ** C5: cleaning twice *)

Section Idempotence.
Context {U : Unicode}.

Lemma no_space_normalised (s : str) :
  Forall (fun c => isspace c = false) s -> normalise_spaces (Some s) = s.
Proof.
  intro H. apply normalise_spaces_fixed. split.
  - apply strip_fixed. destruct s as [|c t]; [auto|right].
    destruct (exists_last (l:=c :: t)) as (r & d & Hr); [discriminate|].
    exists c, t, r, d. repeat split; [exact Hr| |].
    + inversion H; assumption.
    + rewrite Hr in H. apply Forall_app in H as [_ H]. inversion H; assumption.
  - induction H as [|c t Hc _ IH]; simpl; [reflexivity|]. rewrite Hc, IH. reflexivity.
Qed.

(** In the database no decimal digit is a whitespace character. *)
Hypothesis digits_not_space :
  forall c, (128 <= c)%N -> uni_isdecimal c = true -> uni_isspace c = false.

Lemma digit_not_space (c : char) : isdecimal c = true -> isspace c = false.
Proof.
  intro H. destruct (isspace c) eqn:E; [|reflexivity].
  pose proof (space_not_kept digits_not_space c E) as K.
  unfold digit_or_plus in K. rewrite H in K. discriminate K.
Qed.

Lemma filter_all (f : char -> bool) (s : str) :
  Forall (fun c => f c = true) s -> filter f s = s.
Proof.
  induction 1 as [|c t Hc _ IH]; simpl; [reflexivity|]. rewrite Hc, IH. reflexivity.
Qed.

Lemma clean_phone_fixed (d : str) :
  Forall (fun c => isdecimal c = true) d -> clean_phone (Some d) = d.
Proof.
  intro H. rewrite clean_phone_unfold. cbv zeta.
  rewrite no_space_normalised
    by (eapply Forall_impl; [|exact H]; intros c; apply digit_not_space).
  assert (E1 : filter digit_or_plus d = d).
  { apply filter_all. eapply Forall_impl; [|exact H]. intros c Hc.
    unfold digit_or_plus. rewrite Hc. reflexivity. }
  rewrite E1.
  assert (E3 : startswith d (lit "+44") = false).
  { destruct H as [|c t Hc _]; [reflexivity|]. simpl.
    destruct (N.eqb_spec c 43) as [->|]; [discriminate Hc|reflexivity]. }
  rewrite E3. apply filter_all, H.
Qed.

(** C5, as the code has it: [clean_phone] leaves its results unchanged,
    and on a string of ASCII characters so do [clean_name], [clean_email]
    and [clean_company]. *)
Theorem cleaning_idempotent (s : str) :
  clean_phone (Some (clean_phone (Some s))) = clean_phone (Some s)
  /\ (all_ascii s ->
      clean_name (Some (clean_name (Some s))) = clean_name (Some s)
      /\ clean_email (Some (clean_email (Some s))) = clean_email (Some s)
      /\ clean_company (Some (clean_company (Some s))) = clean_company (Some s)).
Proof.
  split; [apply clean_phone_fixed, clean_phone_digits|].
  intro Ha.
  pose proof (all_ascii_normalise_spaces s Ha) as Hn.
  pose proof (normalised_normalise_spaces (Some s)) as Hnorm.
  set (n := normalise_spaces (Some s)) in *.
  split; [|split].
  - rewrite (clean_name_unfold (Some s)). fold n.
    destruct (is_empty n) eqn:En; [vm_compute; reflexivity|].
    pose proof (alike_name_words n Hn) as Hal.
    set (r := join [32%N] (map name_word (split 32%N n))) in *.
    rewrite clean_name_unfold.
    rewrite (proj1 (normalise_spaces_fixed r) (alike_normalised n r Hal Hnorm)).
    rewrite (alike_is_empty n r Hal), En. unfold r.
    rewrite (name_words_idem n Hn). reflexivity.
  - rewrite (clean_email_ascii s Ha). fold n.
    assert (Hal : Forall2 alike n (map low n))
      by (apply alike_map; [apply alike_low|exact Hn]).
    rewrite clean_email_ascii by (apply (alike_all_ascii n _ Hal Hn)).
    rewrite (proj1 (normalise_spaces_fixed _) (alike_normalised n _ Hal Hnorm)).
    rewrite map_map. apply map_ext. intro. apply low_low.
  - rewrite (clean_company_ascii s Ha). fold n.
    pose proof (alike_title false n Hn) as Hal.
    rewrite clean_company_ascii by (apply (alike_all_ascii n _ Hal Hn)).
    rewrite (proj1 (normalise_spaces_fixed _) (alike_normalised n _ Hal Hnorm)).
    apply ascii_title_idem.
Qed.

End Idempotence.

Lemma latin1_digits_not_space :
  forall c, (128 <= c)%N ->
            uni_isdecimal (Unicode:=latin1) c = true ->
            uni_isspace (Unicode:=latin1) c = false.
Proof. intros c _ H. discriminate H. Qed.

(** C5 on the name of the scenario of the specification. *)
Lemma cleaning_idempotent_witness :
  (forall c, (128 <= c)%N ->
             uni_isdecimal (Unicode:=latin1) c = true ->
             uni_isspace (Unicode:=latin1) c = false)
  /\ all_ascii (lit "  amy-walker   JONES ")
  /\ clean_name (U:=latin1)
       (Some (clean_name (U:=latin1) (Some (lit "  amy-walker   JONES "))))
     = clean_name (U:=latin1) (Some (lit "  amy-walker   JONES ")).
Proof.
  assert (Ha : all_ascii (lit "  amy-walker   JONES ")) by (repeat constructor).
  split; [exact latin1_digits_not_space|]. split; [exact Ha|].
  exact (proj1 (proj2 (cleaning_idempotent (U:=latin1) latin1_digits_not_space _) Ha)).
Defined.

(** C5, as the specification has it, fails outside ASCII: in the name of
    code points 223 (the sharp s, U+00DF) and 97 (a) the first character
    upper-cases to two letters, and the second of them is lower-cased by
    the next pass. *)
Lemma clean_name_not_idempotent :
  clean_name (U:=latin1) (Some [223%N; 97%N]) = lit "SSa"
  /\ clean_name (U:=latin1) (Some (lit "SSa")) = lit "Ssa"
  /\ clean_name (U:=latin1) (Some (clean_name (U:=latin1) (Some [223%N; 97%N])))
     <> clean_name (U:=latin1) (Some [223%N; 97%N]).
Proof.
  split; [vm_compute; reflexivity|]. split; [vm_compute; reflexivity|].
  vm_compute. discriminate.
Qed.

(* ================================================================== *)
(** ** C8: the counters of one record *)

Section Stats.
Context {U : Unicode}.

Lemma count_row_email (s : stats) (c : contact) :
  count_row s c missing_email
  = s missing_email + (if is_empty (email c) then 1 else 0)
  /\ count_row s c invalid_email
     = s invalid_email
       + (if is_empty (email c) then 0
          else if is_valid_email (email c) then 0 else 1).
Proof.
  unfold count_row, incr.
  destruct (is_empty (name c)), (is_empty (email c)), (is_valid_email (email c)),
    (is_empty (phone c)), (is_valid_uk_phone (phone c)), (is_empty (company c));
    simpl; lia.
Qed.

Lemma count_row_phone (s : stats) (c : contact) :
  count_row s c missing_phone
  = s missing_phone + (if is_empty (phone c) then 1 else 0)
  /\ count_row s c invalid_phone
     = s invalid_phone
       + (if is_empty (phone c) then 0
          else if is_valid_uk_phone (phone c) then 0 else 1).
Proof.
  unfold count_row, incr.
  destruct (is_empty (name c)), (is_empty (email c)), (is_valid_email (email c)),
    (is_empty (phone c)), (is_valid_uk_phone (phone c)), (is_empty (company c));
    simpl; lia.
Qed.

(** C8: for one row the first loop never raises both the missing and the
    invalid counter of a field: [invalid_email] moves only when the cleaned
    email is not empty, and then [missing_email] stays; the same holds of
    the phone. *)
Theorem missing_and_invalid_exclusive (s : stats) (r : row) :
  let cleaned := clean_contact r in
  let s' := count_row s cleaned in
  (s' missing_email <> s missing_email -> s' invalid_email = s invalid_email)
  /\ (s' invalid_email <> s invalid_email ->
      email cleaned <> [] /\ s' missing_email = s missing_email)
  /\ (s' missing_phone <> s missing_phone -> s' invalid_phone = s invalid_phone)
  /\ (s' invalid_phone <> s invalid_phone ->
      phone cleaned <> [] /\ s' missing_phone = s missing_phone).
Proof.
  intros cleaned s'. subst s'.
  destruct (count_row_email s cleaned) as [E1 E2].
  destruct (count_row_phone s cleaned) as [P1 P2].
  rewrite E1, E2, P1, P2.
  destruct (email cleaned) as [|? ?], (phone cleaned) as [|? ?]; simpl;
    repeat split; intros; try discriminate; lia.
Qed.

End Stats.

(** C8 on a row whose email is not valid. *)
Lemma missing_and_invalid_exclusive_witness :
  let r := mk_row "bob" "bob at c.org" "12345" "" in
  count_row (U:=latin1) stats0 (clean_contact (U:=latin1) r) invalid_email
  <> stats0 invalid_email
  /\ email (clean_contact (U:=latin1) r) <> []
  /\ count_row (U:=latin1) stats0 (clean_contact (U:=latin1) r) missing_email
     = stats0 missing_email.
Proof.
  intro r.
  assert (H : count_row (U:=latin1) stats0 (clean_contact (U:=latin1) r) invalid_email
              <> stats0 invalid_email) by (vm_compute; discriminate).
  split; [exact H|].
  exact (proj1 (proj2 (missing_and_invalid_exclusive (U:=latin1) stats0 r)) H).
Defined.

(* ================================================================== *)
(** ** C9: loading *)

(** C9: when the path does not exist [load_contacts] raises the [IOError]
    whose message ends with the path, having only asked whether the path
    exists; when the path exists and opening and reading it succeed, it
    returns the rows read. *)
Theorem load_contacts_missing_file (fs : filesystem) (path : str) :
  (fs_exists fs path = false ->
   run (load_contacts path) fs
   = (inl (IOError (lit "Contacts file not found: " ++ path)), [Exists path]))
  /\ (forall rows,
        fs_exists fs path = true ->
        fs_open fs path TextUtf8 = None ->
        fs_rows fs path = inr rows ->
        run (load_contacts path) fs
        = (inr rows, [Exists path; Open path TextUtf8; ReadCsv path])).
Proof.
  unfold run, load_contacts, bind, os_path_exists, open_csv_read, open,
    list_DictReader, raise. simpl.
  split.
  - intros ->. reflexivity.
  - intros rows H1 H2 H3. rewrite H1. simpl. rewrite H2, H3. reflexivity.
Qed.

(** C9 on a file system without the file and on one with it. *)
Lemma load_contacts_missing_file_witness :
  fs_exists fs_empty (lit "data/contacts_raw.csv") = false
  /\ fst (run (load_contacts (lit "data/contacts_raw.csv")) fs_empty)
     = inl (IOError (lit "Contacts file not found: data/contacts_raw.csv"))
  /\ fs_exists fs_sample (lit "data/contacts_raw.csv") = true
  /\ fst (run (load_contacts (lit "data/contacts_raw.csv")) fs_sample)
     = fs_rows fs_sample (lit "data/contacts_raw.csv").
Proof.
  split; [reflexivity|]. split.
  - rewrite (proj1 (load_contacts_missing_file fs_empty (lit "data/contacts_raw.csv"))
               eq_refl).
    reflexivity.
  - split; [reflexivity|].
    rewrite (proj2 (load_contacts_missing_file fs_sample (lit "data/contacts_raw.csv"))
               _ eq_refl eq_refl eq_refl).
    reflexivity.
Defined.

(* ================================================================== *)
(** ** Facts about dicts *)

Section DictFacts.
Context {V : Type}.
Implicit Types (d : dict V) (k : str) (v : V).

Lemma dict_get_In d k v : dict_get d k = Some v -> In (k, v) d.
Proof.
  induction d as [|[k' v'] d IH]; simpl; [discriminate|].
  destruct (str_eqb k' k) eqn:E.
  - apply str_eqb_eq in E as ->. intros [= ->]. auto.
  - auto.
Qed.

Lemma dict_get_none d k : dict_get d k = None <-> ~ In k (dict_keys d).
Proof.
  unfold dict_keys in *. induction d as [|[k' v'] d IH]; simpl; [tauto|].
  destruct (str_eqb k' k) eqn:E.
  - apply str_eqb_eq in E. split; [discriminate|]. intro H. destruct H. left. exact E.
  - apply str_eqb_neq in E. rewrite IH. tauto.
Qed.

Lemma dict_mem_keys d k : dict_mem d k = true <-> In k (dict_keys d).
Proof.
  unfold dict_mem. destruct (dict_get d k) eqn:E.
  - split; [|reflexivity]. intros _. apply dict_get_In in E.
    apply (in_map fst) in E. exact E.
  - apply dict_get_none in E. split; [discriminate|tauto].
Qed.

Lemma dict_set_absent d k v : dict_get d k = None -> dict_set d k v = d ++ [(k, v)].
Proof.
  induction d as [|[k' v'] d IH]; simpl; [reflexivity|].
  destruct (str_eqb k' k); [discriminate|]. intros H. rewrite IH by exact H. reflexivity.
Qed.

Lemma dict_set_keys_present d k v x :
  dict_get d k = Some x -> dict_keys (dict_set d k v) = dict_keys d.
Proof.
  induction d as [|[k' v'] d IH]; simpl; [discriminate|].
  destruct (str_eqb k' k); [reflexivity|]. intros H. simpl. rewrite IH by exact H.
  reflexivity.
Qed.

Lemma dict_set_keys d k v :
  dict_keys (dict_set d k v)
  = if dict_mem d k then dict_keys d else dict_keys d ++ [k].
Proof.
  unfold dict_mem. destruct (dict_get d k) eqn:E.
  - apply (dict_set_keys_present _ _ _ _ E).
  - rewrite dict_set_absent by exact E. unfold dict_keys. rewrite map_app. reflexivity.
Qed.

Lemma dict_set_get_same d k v : dict_get (dict_set d k v) k = Some v.
Proof.
  induction d as [|[k' v'] d IH]; simpl.
  - rewrite str_eqb_refl. reflexivity.
  - destruct (str_eqb k' k) eqn:E; simpl; rewrite E; [reflexivity|exact IH].
Qed.

Lemma dict_set_get_other d k k' v :
  k' <> k -> dict_get (dict_set d k' v) k = dict_get d k.
Proof.
  intro Hk. induction d as [|[k0 v0] d IH]; simpl.
  - apply str_eqb_neq in Hk. rewrite Hk. reflexivity.
  - destruct (str_eqb k0 k') eqn:E; simpl.
    + apply str_eqb_eq in E as ->. apply str_eqb_neq in Hk. rewrite Hk. reflexivity.
    + rewrite IH. reflexivity.
Qed.

Lemma dict_set_In d k v k' v' :
  In (k', v') (dict_set d k v) -> (k', v') = (k, v) \/ In (k', v') d.
Proof.
  induction d as [|[k0 v0] d IH]; simpl; [intros [H|[]]; auto|].
  destruct (str_eqb k0 k) eqn:E; simpl.
  - apply str_eqb_eq in E as ->. intros [H|H]; auto.
  - intros [H|H]; [auto|]. destruct (IH H); auto.
Qed.

Lemma dict_set_filter (p : V -> bool) d k v x :
  dict_get d k = Some x -> p x = false -> p v = false ->
  filter p (dict_values (dict_set d k v)) = filter p (dict_values d).
Proof.
  intros H Hx Hv. induction d as [|[k' v'] d IH]; simpl in *; [discriminate|].
  destruct (str_eqb k' k); simpl.
  - injection H as ->. rewrite Hx, Hv. reflexivity.
  - rewrite IH by exact H. reflexivity.
Qed.

Lemma dict_nth_get d i k v :
  NoDup (dict_keys d) -> nth_error d i = Some (k, v) -> dict_get d k = Some v.
Proof.
  revert i. induction d as [|[k' v'] d IH]; intros i Hnd H; [destruct i; discriminate|].
  simpl in Hnd. inversion Hnd as [|? ? Hnot Hnd']; subst.
  destruct i as [|i]; simpl in H |- *.
  - injection H as -> ->. rewrite str_eqb_refl. reflexivity.
  - destruct (str_eqb k' k) eqn:E.
    + apply str_eqb_eq in E as ->. exfalso. apply Hnot.
      apply nth_error_In in H. apply (in_map fst) in H. exact H.
    + apply (IH i Hnd' H).
Qed.

Lemma dict_set_nth_key d k v i k' :
  nth_error (dict_keys d) i = Some k' ->
  nth_error (dict_keys (dict_set d k v)) i = Some k'.
Proof.
  intro H. rewrite dict_set_keys. destruct (dict_mem d k); [exact H|].
  rewrite nth_error_app1; [exact H|]. apply nth_error_Some. congruence.
Qed.

End DictFacts.

(* ================================================================== *)
(** ** Facts about the deduplication loop *)

Section DedupeFacts.
Context {U : Unicode}.

(** A turn of the loop either leaves [deduped], the key of the record
    being there already, or files the record under its key. *)
Lemma dedupe_step_cases (d : dict object) (n : nat) (c : object) :
  (fst (dedupe_step (d, n) c) = d /\ In (key_of c) (dict_keys d))
  \/ fst (dedupe_step (d, n) c) = dict_set d (key_of c) c.
Proof.
  unfold dedupe_step, key_of.
  destruct (is_empty (email (fields c))); [right; reflexivity|].
  destruct (dict_mem d (email (fields c))) eqn:Hm; simpl; [|right; reflexivity].
  pose proof (proj1 (dict_mem_keys d _) Hm) as Hin.
  destruct (dict_get d (email (fields c))); simpl; [|left; auto].
  destruct (Nat.ltb _ _); [right; reflexivity|left; auto].
Qed.

Lemma dedupe_loop_app (l1 l2 : list object) (st : dict object * nat) :
  fold_left dedupe_step (l1 ++ l2) st
  = fold_left dedupe_step l2 (fold_left dedupe_step l1 st).
Proof. apply fold_left_app. Qed.

(** What is in [deduped] came from the list. *)
Lemma dedupe_values_from (l : list object) (d : dict object) (n : nat) (seen : list object) :
  (forall k v, In (k, v) d -> In v seen) ->
  forall k v, In (k, v) (fst (fold_left dedupe_step l (d, n))) -> In v (seen ++ l).
Proof.
  revert d n seen. induction l as [|c l IH]; intros d n seen H k v Hin.
  - rewrite app_nil_r. exact (H k v Hin).
  - cbn [fold_left] in Hin. destruct (dedupe_step (d, n) c) as [d' n'] eqn:E.
    replace (seen ++ c :: l) with ((seen ++ [c]) ++ l) by (rewrite <- app_assoc; reflexivity).
    apply (IH d' n' (seen ++ [c])) with (k := k); [|exact Hin].
    intros k0 v0 H0. apply in_or_app.
    pose proof (dedupe_step_cases d n c) as Hc. rewrite E in Hc. simpl in Hc.
    destruct Hc as [[-> _]| ->].
    + left. exact (H k0 v0 H0).
    + apply dict_set_In in H0 as [[= _ ->]|H0]; [right; simpl; auto|left; eauto].
Qed.

(** C10: each record of the output is one of the records of the input,
    with all its fields: the loop files whole records and builds none. *)
Theorem deduped_records_from_input (cleaned_contacts : list object) :
  Forall (fun c => In c cleaned_contacts
                   /\ In (fields c) (map fields cleaned_contacts))
         (deduped_contacts cleaned_contacts).
Proof.
  apply Forall_forall. intros v Hv. unfold deduped_contacts, dict_values in Hv.
  apply in_map_iff in Hv as ([k v'] & <- & Hv). simpl.
  assert (H : In v' cleaned_contacts).
  { apply (dedupe_values_from cleaned_contacts [] 0 []) with (k := k); [|exact Hv].
    intros ? ? []. }
  split; [exact H|apply in_map, H].
Qed.

End DedupeFacts.

Section DedupeOrder.
Context {U : Unicode}.

Lemma dedupe_step_get_other (d : dict object) (n : nat) (c : object) (k : str) :
  key_of c <> k -> dict_get (fst (dedupe_step (d, n) c)) k = dict_get d k.
Proof.
  intro Hk. destruct (dedupe_step_cases d n c) as [[-> _]| ->]; [reflexivity|].
  apply dict_set_get_other, Hk.
Qed.

Lemma dedupe_loop_get_other (l : list object) (st : dict object * nat) (k : str) :
  Forall (fun c => key_of c <> k) l ->
  dict_get (fst (fold_left dedupe_step l st)) k = dict_get (fst st) k.
Proof.
  intro H. revert st. induction H as [|c l Hc _ IH]; intro st; [reflexivity|].
  cbn [fold_left]. rewrite IH. destruct st as [d n]. apply dedupe_step_get_other, Hc.
Qed.

Lemma dedupe_step_keys_nth (d : dict object) (n : nat) (c : object) (i : nat) (k : str) :
  nth_error (dict_keys d) i = Some k ->
  nth_error (dict_keys (fst (dedupe_step (d, n) c))) i = Some k.
Proof.
  intro H. destruct (dedupe_step_cases d n c) as [[-> _]| ->]; [exact H|].
  apply dict_set_nth_key, H.
Qed.

Lemma dedupe_loop_keys_nth (l : list object) (st : dict object * nat) (i : nat) (k : str) :
  nth_error (dict_keys (fst st)) i = Some k ->
  nth_error (dict_keys (fst (fold_left dedupe_step l st))) i = Some k.
Proof.
  revert st. induction l as [|c l IH]; intros st H; [exact H|].
  cbn [fold_left]. apply IH. destruct st as [d n]. apply dedupe_step_keys_nth, H.
Qed.

Lemma dedupe_step_nodup (d : dict object) (n : nat) (c : object) :
  NoDup (dict_keys d) -> NoDup (dict_keys (fst (dedupe_step (d, n) c))).
Proof.
  intro H. destruct (dedupe_step_cases d n c) as [[-> _]| ->]; [exact H|].
  rewrite dict_set_keys. destruct (dict_mem d (key_of c)) eqn:E; [exact H|].
  apply NoDup_app; [exact H|repeat constructor; simpl; tauto|].
  intros k Hk [<-|[]]. apply dict_mem_keys in Hk. congruence.
Qed.

Lemma dedupe_loop_nodup (l : list object) (st : dict object * nat) :
  NoDup (dict_keys (fst st)) ->
  NoDup (dict_keys (fst (fold_left dedupe_step l st))).
Proof.
  revert st. induction l as [|c l IH]; intros st H; [exact H|].
  cbn [fold_left]. apply IH. destruct st as [d n]. apply dedupe_step_nodup, H.
Qed.

(** The counter does not steer the loop. *)
Lemma dedupe_step_count (d : dict object) (n : nat) (c : object) :
  dedupe_step (d, S n) c
  = (fst (dedupe_step (d, n) c), S (snd (dedupe_step (d, n) c))).
Proof.
  unfold dedupe_step. destruct (is_empty _); [reflexivity|].
  destruct (negb _); [reflexivity|]. destruct (dict_get _ _); reflexivity.
Qed.

Lemma dedupe_loop_count (l : list object) (d : dict object) (n : nat) :
  fold_left dedupe_step l (d, S n)
  = (fst (fold_left dedupe_step l (d, n)), S (snd (fold_left dedupe_step l (d, n)))).
Proof.
  revert d n. induction l as [|c l IH]; intros d n; [reflexivity|].
  cbn [fold_left]. rewrite dedupe_step_count.
  destruct (dedupe_step (d, n) c) as [d' n']. apply IH.
Qed.

Lemma dedupe_step_new (d : dict object) (n : nat) (c : object) :
  email (fields c) <> [] -> dict_get d (email (fields c)) = None ->
  dedupe_step (d, n) c = (d ++ [(email (fields c), c)], n).
Proof.
  intros He Hg. unfold dedupe_step, dict_mem. rewrite Hg.
  destruct (email (fields c)) eqn:E; [congruence|]. simpl.
  rewrite dict_set_absent by exact Hg. reflexivity.
Qed.

Lemma dedupe_step_existing (d : dict object) (n : nat) (c existing : object) :
  email (fields c) <> [] -> dict_get d (email (fields c)) = Some existing ->
  dedupe_step (d, n) c
  = ((if Nat.ltb (completeness_score (fields existing)) (completeness_score (fields c))
      then dict_set d (email (fields c)) c else d), S n).
Proof.
  intros He Hg. unfold dedupe_step, dict_mem. rewrite Hg.
  destruct (email (fields c)) eqn:E; [congruence|]. reflexivity.
Qed.

(** In the database lower-casing a character outside ASCII never gives the
    capital N of ASCII. *)
Hypothesis lower_not_capital :
  forall before c after, (128 <= c)%N -> ~ In 78%N (uni_tolower before c after).

Lemma lower_from_no_capital (before s : str) : ~ In 78%N (lower_from before s).
Proof.
  revert before. induction s as [|c t IH]; intros pre; simpl; [tauto|].
  intro H. apply in_app_or in H as [H|H]; [|exact (IH _ H)].
  unfold tolower, is_ascii in H. destruct (N.ltb_spec c 128) as [Hc|Hc].
  - destruct H as [H|[]]. unfold low, ascii_upper in H. code_cases.
  - exact (lower_not_capital pre c t Hc H).
Qed.

Lemma cleaned_email_no_capital (c : contact) : cleaned c -> ~ In 78%N (email c).
Proof. intros [r ->]. simpl. apply lower_from_no_capital. Qed.

Lemma noemail_key_capital (address : N) : In 78%N (noemail_key address).
Proof. left. reflexivity. Qed.

Lemma key_of_other (e : str) (c : object) :
  ~ In 78%N e -> email (fields c) <> e -> key_of c <> e.
Proof.
  intros He Hc. unfold key_of. destruct (is_empty (email (fields c))); [|exact Hc].
  intros <-. apply He, noemail_key_capital.
Qed.

Lemma keys_of_others (e : str) (l : list object) :
  ~ In 78%N e -> Forall (fun c => email (fields c) <> e) l ->
  Forall (fun c => key_of c <> e) l.
Proof.
  intros He H. eapply Forall_impl; [|exact H]. intros c. apply key_of_other, He.
Qed.

(** A record filed under its email stays there while no record of that
    email and of a higher score is read. *)
Lemma dedupe_loop_keeps (l : list object) (d : dict object) (n : nat) (x : object) :
  ~ In 78%N (email (fields x)) ->
  email (fields x) <> [] ->
  dict_get d (email (fields x)) = Some x ->
  Forall (fun c => email (fields c) = email (fields x) ->
                   completeness_score (fields c) <= completeness_score (fields x)) l ->
  dict_get (fst (fold_left dedupe_step l (d, n))) (email (fields x)) = Some x.
Proof.
  intros HN He Hg H. revert d n Hg.
  induction H as [|c l Hc _ IH]; intros d n Hg; [exact Hg|].
  cbn [fold_left].
  destruct (dedupe_step (d, n) c) as [d' n'] eqn:E. apply IH.
  change d' with (fst (d', n')). rewrite <- E.
  destruct (str_eq_dec (email (fields c)) (email (fields x))) as [Hce|Hce].
  - rewrite (dedupe_step_existing d n c x) by (rewrite Hce; assumption).
    apply Hc, Nat.ltb_ge in Hce. rewrite Hce. exact Hg.
  - rewrite dedupe_step_get_other; [exact Hg|]. apply key_of_other; assumption.
Qed.

(** The state of the loop when the first record of an email has been filed
    and the records up to the next one that counts have been read. *)
Lemma dedupe_between (pre mid : list object) (a : object) :
  cleaned (fields a) ->
  email (fields a) <> [] ->
  Forall (fun c => email (fields c) <> email (fields a)) pre ->
  Forall (fun c => email (fields c) = email (fields a) ->
                   completeness_score (fields c) <= completeness_score (fields a)) mid ->
  let d1 := fst (dedupe_loop pre) in
  fold_left dedupe_step (pre ++ [a]) ([], 0)
  = (d1 ++ [(email (fields a), a)], snd (dedupe_loop pre))
  /\ dict_get (fst (fold_left dedupe_step (pre ++ a :: mid) ([], 0))) (email (fields a))
     = Some a
  /\ nth_error (dict_keys (fst (fold_left dedupe_step (pre ++ a :: mid) ([], 0))))
               (length d1)
     = Some (email (fields a)).
Proof.
  intros Hcl He Hpre Hmid d1.
  pose proof (cleaned_email_no_capital _ Hcl) as HN.
  assert (Hg1 : dict_get d1 (email (fields a)) = None).
  { unfold d1, dedupe_loop. rewrite dedupe_loop_get_other; [reflexivity|].
    apply keys_of_others; assumption. }
  assert (E1 : fold_left dedupe_step (pre ++ [a]) ([], 0)
               = (d1 ++ [(email (fields a), a)], snd (dedupe_loop pre))).
  { rewrite dedupe_loop_app. cbn [fold_left]. fold (dedupe_loop pre).
    rewrite (surjective_pairing (dedupe_loop pre)). fold d1.
    apply dedupe_step_new; assumption. }
  split; [exact E1|].
  replace (pre ++ a :: mid) with ((pre ++ [a]) ++ mid)
    by (rewrite <- app_assoc; reflexivity).
  rewrite dedupe_loop_app, E1. split.
  - apply dedupe_loop_keeps; try assumption.
    rewrite <- (dict_set_absent d1 _ a Hg1). apply dict_set_get_same.
  - apply dedupe_loop_keys_nth. cbn [fst]. unfold dict_keys. rewrite map_app.
    rewrite nth_error_app2 by (rewrite length_map; lia).
    rewrite length_map, Nat.sub_diag. reflexivity.
Qed.

(** C6: let two records have one non-empty email and equal scores, the
    first of them being the first record of the list with that email, and
    let no record of the list with that email have a higher score.  Then
    the first is the record filed under the email at the end of the loop,
    so it is in the output; the second changes nothing of the output and
    raises [duplicates_removed] by one. *)
Theorem dedupe_tie_keeps_first (pre mid post : list object) (a b : object) :
  cleaned (fields a) ->
  email (fields a) <> [] ->
  email (fields b) = email (fields a) ->
  completeness_score (fields b) = completeness_score (fields a) ->
  Forall (fun c => email (fields c) <> email (fields a)) pre ->
  Forall (fun c => email (fields c) = email (fields a) ->
                   completeness_score (fields c) <= completeness_score (fields a))
         (mid ++ post) ->
  let cleaned_contacts := pre ++ a :: mid ++ b :: post in
  dict_get (fst (dedupe_loop cleaned_contacts)) (email (fields a)) = Some a
  /\ In a (deduped_contacts cleaned_contacts)
  /\ deduped_contacts cleaned_contacts = deduped_contacts (pre ++ a :: mid ++ post)
  /\ duplicates_removed cleaned_contacts
     = S (duplicates_removed (pre ++ a :: mid ++ post)).
Proof.
  intros Hcl He Hb Hsc Hpre Hrest cs.
  pose proof (cleaned_email_no_capital _ Hcl) as HN.
  apply Forall_app in Hrest as [Hmid Hpost].
  destruct (dedupe_between pre mid a Hcl He Hpre Hmid) as (_ & Hget & _).
  assert (E : dedupe_loop cs
              = (fst (dedupe_loop (pre ++ a :: mid ++ post)),
                 S (snd (dedupe_loop (pre ++ a :: mid ++ post))))).
  { unfold cs, dedupe_loop.
    replace (pre ++ a :: mid ++ b :: post) with ((pre ++ a :: mid) ++ b :: post)
      by (rewrite <- app_assoc; reflexivity).
    replace (pre ++ a :: mid ++ post) with ((pre ++ a :: mid) ++ post)
      by (rewrite <- app_assoc; reflexivity).
    rewrite (dedupe_loop_app (pre ++ a :: mid) (b :: post)),
      (dedupe_loop_app (pre ++ a :: mid) post). cbn [fold_left].
    destruct (fold_left dedupe_step (pre ++ a :: mid) ([], 0)) as [d3 n3].
    cbn [fst] in Hget.
    rewrite (dedupe_step_existing d3 n3 b a) by (rewrite ?Hb; assumption).
    rewrite Hsc, Nat.ltb_irrefl. apply dedupe_loop_count. }
  assert (G : dict_get (fst (dedupe_loop cs)) (email (fields a)) = Some a).
  { rewrite E. cbn [fst]. unfold dedupe_loop.
    replace (pre ++ a :: mid ++ post) with ((pre ++ a :: mid) ++ post)
      by (rewrite <- app_assoc; reflexivity).
    rewrite dedupe_loop_app.
    destruct (fold_left dedupe_step (pre ++ a :: mid) ([], 0)) as [d3 n3].
    apply dedupe_loop_keeps; assumption. }
  split; [exact G|]. split; [|split].
  - apply dict_get_In in G. apply (in_map snd) in G. exact G.
  - unfold deduped_contacts. rewrite E. reflexivity.
  - unfold duplicates_removed. rewrite E. reflexivity.
Qed.

(** C7: let two records have one non-empty email, the first of them being
    the first record of the list with that email and the second having a
    strictly higher score; let no record of that email between them score
    higher than the first, and none after them higher than the second.
    Then the first is filed at the end of what the records before it left,
    and at the end of the loop the second stands at that same index of the
    output. *)
Theorem dedupe_replaces_in_place (pre mid post : list object) (a b : object) :
  cleaned (fields a) ->
  email (fields a) <> [] ->
  email (fields b) = email (fields a) ->
  completeness_score (fields a) < completeness_score (fields b) ->
  Forall (fun c => email (fields c) <> email (fields a)) pre ->
  Forall (fun c => email (fields c) = email (fields a) ->
                   completeness_score (fields c) <= completeness_score (fields a)) mid ->
  Forall (fun c => email (fields c) = email (fields a) ->
                   completeness_score (fields c) <= completeness_score (fields b)) post ->
  let cleaned_contacts := pre ++ a :: mid ++ b :: post in
  let i := length (deduped_contacts pre) in
  nth_error (deduped_contacts (pre ++ [a])) i = Some a
  /\ nth_error (deduped_contacts cleaned_contacts) i = Some b.
Proof.
  intros Hcl He Hb Hsc Hpre Hmid Hpost cs i.
  pose proof (cleaned_email_no_capital _ Hcl) as HN.
  destruct (dedupe_between pre mid a Hcl He Hpre Hmid) as (E1 & Hget & Hnth).
  assert (Hi : i = length (fst (dedupe_loop pre))).
  { unfold i, deduped_contacts, dict_values. apply length_map. }
  split.
  - unfold deduped_contacts, dedupe_loop. rewrite E1. cbn [fst].
    unfold dict_values. rewrite map_app.
    rewrite nth_error_app2 by (rewrite length_map; lia).
    rewrite length_map, Hi, Nat.sub_diag. reflexivity.
  - set (final := fst (dedupe_loop cs)).
    assert (Hk : nth_error (dict_keys final) i = Some (email (fields a))
                 /\ dict_get final (email (fields a)) = Some b).
    { unfold final, cs, dedupe_loop.
      replace (pre ++ a :: mid ++ b :: post) with ((pre ++ a :: mid) ++ b :: post)
        by (rewrite <- app_assoc; reflexivity).
      rewrite dedupe_loop_app. cbn [fold_left].
      destruct (fold_left dedupe_step (pre ++ a :: mid) ([], 0)) as [d3 n3].
      cbn [fst] in Hget, Hnth. rewrite <- Hi in Hnth.
      rewrite (dedupe_step_existing d3 n3 b a) by (rewrite ?Hb; assumption).
      apply Nat.ltb_lt in Hsc. rewrite Hsc, Hb. split.
      - apply dedupe_loop_keys_nth. cbn [fst]. apply dict_set_nth_key, Hnth.
      - rewrite <- Hb. apply dedupe_loop_keeps.
        + rewrite Hb. exact HN.
        + rewrite Hb. exact He.
        + apply dict_set_get_same.
        + rewrite Hb. exact Hpost. }
    destruct Hk as [Hk Hg].
    assert (Hnd : NoDup (dict_keys final))
      by (apply dedupe_loop_nodup; constructor).
    unfold dict_keys in Hk. rewrite nth_error_map in Hk.
    destruct (nth_error final i) as [[k v]|] eqn:Hkv; [|discriminate].
    simpl in Hk. injection Hk as ->.
    rewrite (dict_nth_get final i _ v Hnd Hkv) in Hg. injection Hg as ->.
    unfold deduped_contacts. fold final. unfold dict_values.
    rewrite nth_error_map, Hkv. reflexivity.
Qed.

End DedupeOrder.

(* ================================================================== *)
(** ** C4: the size of the output *)

Lemma digits_inj (d d' : uint) : digits d = digits d' -> d = d'.
Proof.
  revert d'. induction d; destruct d'; simpl; intro H; try discriminate;
    try reflexivity; injection H as H; f_equal; auto.
Qed.

Lemma noemail_key_inj (a b : N) : noemail_key a = noemail_key b -> a = b.
Proof.
  unfold noemail_key, format_int. intro H. apply app_inv_head in H.
  apply digits_inj in H. rewrite <- (DecimalN.Unsigned.of_to a), H.
  apply DecimalN.Unsigned.of_to.
Qed.

Section DedupeCount.
Context {U : Unicode}.

Lemma dedupe_step_keys (d : dict object) (n : nat) (c : object) (k : str) :
  In k (dict_keys (fst (dedupe_step (d, n) c))) <-> In k (dict_keys d) \/ k = key_of c.
Proof.
  destruct (dedupe_step_cases d n c) as [[-> Hin]| ->].
  - split; [auto|]. intros [H| ->]; assumption.
  - rewrite dict_set_keys. destruct (dict_mem d (key_of c)) eqn:E.
    + apply dict_mem_keys in E. split; [auto|]. intros [H| ->]; assumption.
    + rewrite in_app_iff. simpl. intuition.
Qed.

Lemma dedupe_loop_keys (l : list object) (st : dict object * nat) (k : str) :
  In k (dict_keys (fst (fold_left dedupe_step l st)))
  <-> In k (dict_keys (fst st)) \/ In k (map key_of l).
Proof.
  revert st. induction l as [|c l IH]; intro st; simpl; [tauto|].
  rewrite IH. destruct st as [d n]. rewrite dedupe_step_keys. cbn [fst]. intuition.
Qed.

Lemma nodup_map_filter (p : object -> bool) (l : list object) :
  NoDup (map obj_id l) -> NoDup (map obj_id (filter p l)).
Proof.
  induction l as [|c l IH]; simpl; intro H; [constructor|].
  inversion H as [|? ? Hn Hd]; subst. destruct (p c); simpl; [|auto].
  constructor; [|auto]. intro Hin. apply Hn.
  apply in_map_iff in Hin as (x & Hx & Hin). apply filter_In in Hin as [Hin _].
  rewrite <- Hx. apply in_map, Hin.
Qed.

Lemma nodup_map_inj {A B : Type} (f : A -> B) (l : list A) :
  (forall x y, f x = f y -> x = y) -> NoDup l -> NoDup (map f l).
Proof.
  intros Hf H. induction H as [|x l Hx _ IH]; simpl; constructor; [|exact IH].
  intro Hin. apply in_map_iff in Hin as (y & Hy & Hin). apply Hf in Hy. subst. auto.
Qed.

(** The keys of the records: the distinct emails and one key for each
    record without email. *)
Lemma keys_of_records (cs : list object) (k : str) :
  In k (map key_of cs)
  <-> In k (distinct_emails cs
            ++ map noemail_key (map obj_id (filter no_email cs))).
Proof.
  unfold distinct_emails. rewrite in_app_iff, nodup_In, filter_In, !in_map_iff.
  split.
  - intros (c & <- & Hc). unfold key_of. destruct (is_empty (email (fields c))) eqn:E.
    + right. exists (obj_id c). split; [reflexivity|]. apply in_map.
      apply filter_In. auto.
    + left. rewrite E. split; [|reflexivity]. exists c. auto.
  - intros [[(c & <- & Hc) He]|(i & <- & Hi)].
    + exists c. split; [|exact Hc]. unfold key_of.
      destruct (is_empty (email (fields c))); [discriminate|reflexivity].
    + apply in_map_iff in Hi as (c & <- & Hc). apply filter_In in Hc as [Hc He].
      exists c. split; [|exact Hc]. unfold key_of. unfold no_email in He.
      rewrite He. reflexivity.
Qed.

(** In the database lower-casing a character outside ASCII never gives the
    capital N of ASCII, with which the keys of the records without email
    start. *)
Hypothesis lower_not_capital :
  forall before c after, (128 <= c)%N -> ~ In 78%N (uni_tolower before c after).

(** Two records of one key are both records with an email. *)
Lemma key_clash (seen rest : list object) (v c : object) :
  NoDup (map obj_id (seen ++ c :: rest)) ->
  ~ In 78%N (email (fields v)) -> ~ In 78%N (email (fields c)) ->
  In v seen -> key_of v = key_of c ->
  no_email v = false /\ no_email c = false.
Proof.
  intros Hnd Hv Hc Hin. unfold key_of, no_email.
  destruct (is_empty (email (fields v))), (is_empty (email (fields c))); intro E.
  - exfalso. apply noemail_key_inj in E. rewrite map_app in Hnd. simpl in Hnd.
    apply NoDup_remove_2 in Hnd. apply Hnd, in_or_app. left. rewrite <- E.
    apply in_map, Hin.
  - exfalso. apply Hc. rewrite <- E. apply noemail_key_capital.
  - exfalso. apply Hv. rewrite E. apply noemail_key_capital.
  - auto.
Qed.

Lemma dedupe_loop_no_email (l seen : list object) (d : dict object) (n : nat) :
  NoDup (map obj_id (seen ++ l)) ->
  Forall (fun c => ~ In 78%N (email (fields c))) (seen ++ l) ->
  (forall k v, In (k, v) d -> k = key_of v /\ In v seen) ->
  filter no_email (dict_values d) = filter no_email seen ->
  filter no_email (dict_values (fst (fold_left dedupe_step l (d, n))))
  = filter no_email (seen ++ l).
Proof.
  revert seen d n. induction l as [|c l IH]; intros seen d n Hnd Hcl J1 J2.
  - rewrite app_nil_r. exact J2.
  - cbn [fold_left].
    assert (Hc78 : ~ In 78%N (email (fields c))).
    { apply Forall_app in Hcl as [_ Hcl]. inversion Hcl; assumption. }
    assert (Hs78 : forall v, In v seen -> ~ In 78%N (email (fields v))).
    { apply Forall_app in Hcl as [Hcl _]. apply Forall_forall. exact Hcl. }
    assert (Hclash : forall x, In (key_of c, x) d ->
                               no_email x = false /\ no_email c = false).
    { intros x Hx. destruct (J1 _ _ Hx) as [Hk Hin].
      apply (key_clash seen l x c Hnd (Hs78 x Hin) Hc78 Hin). symmetry. exact Hk. }
    destruct (dedupe_step (d, n) c) as [d' n'] eqn:E.
    replace (seen ++ c :: l) with ((seen ++ [c]) ++ l) in *
      by (rewrite <- app_assoc; reflexivity).
    pose proof (dedupe_step_cases d n c) as Hcases. rewrite E in Hcases.
    cbn [fst] in Hcases.
    apply IH; try assumption.
    + intros k v Hin. rewrite in_app_iff.
      destruct Hcases as [[-> _]| ->].
      * destruct (J1 _ _ Hin). auto.
      * apply dict_set_In in Hin as [[= -> ->]|Hin]; [simpl; auto|].
        destruct (J1 _ _ Hin). auto.
    + rewrite filter_app. simpl.
      destruct Hcases as [[-> Hin]| ->].
      * apply in_map_iff in Hin as ([k x] & Hk & Hin). simpl in Hk. subst k.
        destruct (Hclash x Hin) as [_ ->]. rewrite app_nil_r. exact J2.
      * destruct (dict_get d (key_of c)) as [x|] eqn:G.
        -- destruct (Hclash x (dict_get_In _ _ _ G)) as [Hx Hc].
           rewrite (dict_set_filter no_email d (key_of c) c x G Hx Hc), Hc, app_nil_r.
           exact J2.
        -- rewrite (dict_set_absent d _ c G). unfold dict_values.
           rewrite map_app, filter_app, <- J2. reflexivity.
Qed.

(** C4: the output has one record for each distinct non-empty email and one
    for each record without email; the records without email stand in the
    output as they stand in the input, each for itself. *)
Theorem dedupe_output_size (cleaned_contacts : list object) :
  NoDup (map obj_id cleaned_contacts) ->
  Forall (fun c => cleaned (fields c)) cleaned_contacts ->
  length (deduped_contacts cleaned_contacts)
  = length (distinct_emails cleaned_contacts)
    + length (filter no_email cleaned_contacts)
  /\ filter no_email (deduped_contacts cleaned_contacts)
     = filter no_email cleaned_contacts.
Proof.
  intros Hnd Hcl.
  assert (H78 : Forall (fun c => ~ In 78%N (email (fields c))) cleaned_contacts).
  { eapply Forall_impl; [|exact Hcl]. intros c.
    apply (cleaned_email_no_capital lower_not_capital). }
  split.
  - set (final := fst (dedupe_loop cleaned_contacts)).
    set (B := map noemail_key (map obj_id (filter no_email cleaned_contacts))).
    assert (P : Permutation (dict_keys final) (distinct_emails cleaned_contacts ++ B)).
    { apply NoDup_Permutation.
      - apply dedupe_loop_nodup. constructor.
      - apply NoDup_app.
        + apply NoDup_nodup.
        + apply nodup_map_inj; [exact noemail_key_inj|].
          apply nodup_map_filter, Hnd.
        + intros k Ha Hb. unfold distinct_emails in Ha.
          apply nodup_In, filter_In in Ha as [Ha _].
          apply in_map_iff in Ha as (c & <- & Hc).
          apply in_map_iff in Hb as (i & Hi & _).
          apply (proj1 (Forall_forall _ _) H78 c Hc). rewrite <- Hi.
          apply noemail_key_capital.
      - intro k. unfold final, dedupe_loop, B. rewrite dedupe_loop_keys.
        rewrite <- keys_of_records. simpl. tauto. }
    apply Permutation_length in P. unfold deduped_contacts. fold final.
    unfold dict_values. unfold dict_keys in P. rewrite length_map in *.
    rewrite P, length_app. unfold B. rewrite !length_map. reflexivity.
  - unfold deduped_contacts, dedupe_loop.
    apply (dedupe_loop_no_email cleaned_contacts [] [] 0); simpl; try assumption.
    + intros k v [].
    + reflexivity.
Qed.

End DedupeCount.

(* ================================================================== *)
(** ** The theorems at work on the Latin-1 rows of the database *)

Lemma latin1_lower_not_capital :
  forall before c after,
    (128 <= c)%N -> ~ In 78%N (uni_tolower (Unicode:=latin1) before c after).
Proof.
  intros before c after Hc. simpl. destruct (latin1_capital c); simpl; lia.
Qed.

Lemma sample_cleaned (i : N) (n e p c : string) :
  cleaned (U:=latin1) (fields (i, clean_contact (U:=latin1) (mk_row n e p c))).
Proof. exists (mk_row n e p c). reflexivity. Qed.

(** C4 on six records: three of one email, one of another, two without. *)
Lemma dedupe_output_size_witness :
  let cs := [sample_first; sample_no_email; sample_tie; sample_no_email_again;
             sample_other; sample_better] in
  NoDup (map obj_id cs)
  /\ Forall (fun c => cleaned (U:=latin1) (fields c)) cs
  /\ length (deduped_contacts cs) = 4.
Proof.
  intro cs.
  assert (Hnd : NoDup (map obj_id cs)).
  { repeat constructor; simpl; intuition discriminate. }
  assert (Hcl : Forall (fun c => cleaned (U:=latin1) (fields c)) cs).
  { repeat constructor; apply sample_cleaned. }
  split; [exact Hnd|]. split; [exact Hcl|].
  rewrite (proj1 (dedupe_output_size (U:=latin1) latin1_lower_not_capital cs Hnd Hcl)).
  vm_compute. reflexivity.
Defined.

(** C6 on a list with the two records of the tie, a record of another
    email, two records without email and a record of the same email and a
    lower score. *)
Lemma dedupe_tie_keeps_first_witness :
  cleaned (U:=latin1) (fields sample_first)
  /\ email (fields sample_first) <> []
  /\ email (fields sample_tie) = email (fields sample_first)
  /\ completeness_score (fields sample_tie) = completeness_score (fields sample_first)
  /\ Forall (fun c => email (fields c) <> email (fields sample_first)) [sample_no_email]
  /\ Forall (fun c => email (fields c) = email (fields sample_first) ->
                      completeness_score (fields c)
                      <= completeness_score (fields sample_first))
            ([sample_other] ++ [sample_no_email_again; sample_less])
  /\ dict_get
       (fst (dedupe_loop ([sample_no_email] ++ sample_first :: [sample_other]
                          ++ sample_tie :: [sample_no_email_again; sample_less])))
       (email (fields sample_first))
     = Some sample_first.
Proof.
  assert (H1 : cleaned (U:=latin1) (fields sample_first)) by apply sample_cleaned.
  assert (H2 : email (fields sample_first) <> []) by (vm_compute; discriminate).
  assert (H3 : email (fields sample_tie) = email (fields sample_first))
    by (vm_compute; reflexivity).
  assert (H4 : completeness_score (fields sample_tie)
               = completeness_score (fields sample_first))
    by (vm_compute; reflexivity).
  assert (H5 : Forall (fun c => email (fields c) <> email (fields sample_first))
                 [sample_no_email])
    by (repeat constructor; vm_compute; discriminate).
  assert (H6 : Forall (fun c => email (fields c) = email (fields sample_first) ->
                         completeness_score (fields c)
                         <= completeness_score (fields sample_first))
                 ([sample_other] ++ [sample_no_email_again; sample_less]))
    by (repeat constructor; intros _; vm_compute; lia).
  repeat (split; [assumption|]).
  exact (proj1 (dedupe_tie_keeps_first (U:=latin1) latin1_lower_not_capital
                  [sample_no_email] [sample_other] [sample_no_email_again; sample_less]
                  sample_first sample_tie H1 H2 H3 H4 H5 H6)).
Defined.

(** C7 on the rows of the scenario of the specification: the second row
    of the email has a phone, the first has none. *)
Lemma dedupe_replaces_in_place_witness :
  cleaned (U:=latin1) (fields sample_first)
  /\ email (fields sample_first) <> []
  /\ email (fields sample_better) = email (fields sample_first)
  /\ completeness_score (fields sample_first) < completeness_score (fields sample_better)
  /\ Forall (fun c => email (fields c) <> email (fields sample_first)) [sample_no_email]
  /\ Forall (fun c => email (fields c) = email (fields sample_first) ->
                      completeness_score (fields c)
                      <= completeness_score (fields sample_first))
            [sample_other; sample_tie]
  /\ Forall (fun c => email (fields c) = email (fields sample_first) ->
                      completeness_score (fields c)
                      <= completeness_score (fields sample_better))
            [sample_no_email_again; sample_less]
  /\ nth_error
       (deduped_contacts ([sample_no_email] ++ sample_first :: [sample_other; sample_tie]
                          ++ sample_better :: [sample_no_email_again; sample_less]))
       (length (deduped_contacts [sample_no_email]))
     = Some sample_better.
Proof.
  assert (H1 : cleaned (U:=latin1) (fields sample_first)) by apply sample_cleaned.
  assert (H2 : email (fields sample_first) <> []) by (vm_compute; discriminate).
  assert (H3 : email (fields sample_better) = email (fields sample_first))
    by (vm_compute; reflexivity).
  assert (H4 : completeness_score (fields sample_first)
               < completeness_score (fields sample_better))
    by (vm_compute; lia).
  assert (H5 : Forall (fun c => email (fields c) <> email (fields sample_first))
                 [sample_no_email])
    by (repeat constructor; vm_compute; discriminate).
  assert (H6 : Forall (fun c => email (fields c) = email (fields sample_first) ->
                         completeness_score (fields c)
                         <= completeness_score (fields sample_first))
                 [sample_other; sample_tie])
    by (repeat constructor; intros _; vm_compute; lia).
  assert (H7 : Forall (fun c => email (fields c) = email (fields sample_first) ->
                         completeness_score (fields c)
                         <= completeness_score (fields sample_better))
                 [sample_no_email_again; sample_less])
    by (repeat constructor; intros _; vm_compute; lia).
  repeat (split; [assumption|]).
  exact (proj2 (dedupe_replaces_in_place (U:=latin1) latin1_lower_not_capital
                  [sample_no_email] [sample_other; sample_tie]
                  [sample_no_email_again; sample_less]
                  sample_first sample_better H1 H2 H3 H4 H5 H6 H7)).
Defined.

(* ================================================================== *)
(** ** Further properties: [normalise_spaces] *)

Section NormaliseProperties.
Context {U : Unicode}.

(** X1: [normalise_spaces] leaves its results unchanged, whatever the
    input (None or any string). *)
Theorem normalise_spaces_idempotent (text : option str) :
  normalise_spaces (Some (normalise_spaces text)) = normalise_spaces text.
Proof. apply normalise_spaces_fixed, normalised_normalise_spaces. Qed.

Lemma squash_fixed_space (l : str) (c : char) (r : str) (p : bool) :
  squash p (l ++ c :: r) = l ++ c :: r -> isspace c = true ->
  c = 32%N /\ forall d r', r = d :: r' -> isspace d = false.
Proof.
  revert p. induction l as [|x l IH]; intros p E Hc; simpl in E.
  - rewrite Hc in E. destruct p.
    + exfalso. pose proof (squash_length true r) as Hl. rewrite E in Hl.
      simpl in Hl. lia.
    + injection E as E1 E2. split; [auto|]. intros d r' ->.
      destruct (isspace d) eqn:Hd; [|reflexivity]. exfalso.
      simpl in E2. rewrite Hd in E2.
      pose proof (squash_length true r') as Hl. rewrite E2 in Hl. simpl in Hl. lia.
  - destruct (isspace x) eqn:Hx.
    + destruct p.
      * exfalso. pose proof (squash_length true (l ++ c :: r)) as Hl. rewrite E in Hl.
        simpl in Hl. lia.
      * injection E as _ E. exact (IH true E Hc).
    + injection E as E. exact (IH false E Hc).
Qed.

(** X2: a result of [normalise_spaces] neither starts nor ends with a
    whitespace character, and a whitespace character inside it is a space
    that no whitespace character follows. *)
Theorem normalise_spaces_shape (text : option str) :
  let n := normalise_spaces text in
  (forall c t, n = c :: t -> isspace c = false)
  /\ (forall t c, n = t ++ [c] -> isspace c = false)
  /\ (forall l c r, n = l ++ c :: r -> isspace c = true ->
        c = 32%N /\ forall d r', r = d :: r' -> isspace d = false).
Proof.
  intro n. destruct (normalised_normalise_spaces text) as [E1 E2]. fold n in E1, E2.
  split; [|split].
  - intros c t H. rewrite H in E1. exact (strip_head _ _ _ E1).
  - intros t c H. rewrite H in E1. exact (strip_last _ _ _ E1).
  - intros l c r H Hc. rewrite H in E2. exact (squash_fixed_space l c r false E2 Hc).
Qed.

Lemma filter_visible_lstrip (s : str) :
  filter (fun c => negb (isspace c)) (lstrip s) = filter (fun c => negb (isspace c)) s.
Proof.
  induction s as [|c t IH]; simpl; [reflexivity|].
  destruct (isspace c) eqn:Hc; simpl; [exact IH|]. rewrite Hc. reflexivity.
Qed.

Lemma filter_visible_rstrip (s : str) :
  filter (fun c => negb (isspace c)) (rstrip s) = filter (fun c => negb (isspace c)) s.
Proof.
  induction s as [|c t IH]; simpl; [reflexivity|].
  destruct (rstrip t) as [|d r] eqn:E.
  - simpl in IH. rewrite <- IH. destruct (isspace c) eqn:Hc; simpl; [reflexivity|].
    rewrite Hc. reflexivity.
  - rewrite <- IH. reflexivity.
Qed.

Lemma filter_visible_squash (b : bool) (s : str) :
  filter (fun c => negb (isspace c)) (squash b s) = filter (fun c => negb (isspace c)) s.
Proof.
  revert b. induction s as [|c t IH]; intro b; simpl; [reflexivity|].
  destruct (isspace c) eqn:Hc; simpl.
  - destruct b; simpl; apply IH.
  - rewrite Hc. simpl. rewrite IH. reflexivity.
Qed.

Lemma filter_visible_normalise_spaces (text : option str) :
  filter (fun c => negb (isspace c)) (normalise_spaces text)
  = filter (fun c => negb (isspace c)) (or_empty text).
Proof.
  rewrite normalise_spaces_squash, filter_visible_squash. unfold strip.
  rewrite filter_visible_rstrip. apply filter_visible_lstrip.
Qed.

(** X3: [normalise_spaces] keeps the characters that are not whitespace,
    all of them and in their order: it drops and adds whitespace only. *)
Theorem normalise_spaces_keeps_visible (text : option str) :
  filter (fun c => negb (isspace c)) (normalise_spaces text)
  = filter (fun c => negb (isspace c)) (or_empty text).
Proof. apply filter_visible_normalise_spaces. Qed.

Lemma lstrip_all_space (s : str) :
  Forall (fun c => isspace c = true) s -> lstrip s = [].
Proof. induction 1 as [|c t Hc _ IH]; simpl; [reflexivity|]. rewrite Hc. exact IH. Qed.

(** X4: the result of [normalise_spaces] is empty exactly when the input
    is None or has whitespace characters only. *)
Theorem normalise_spaces_empty (text : option str) :
  normalise_spaces text = [] <-> Forall (fun c => isspace c = true) (or_empty text).
Proof.
  split.
  - intro E. pose proof (filter_visible_normalise_spaces text) as K. rewrite E in K.
    simpl in K. apply Forall_forall. intros c Hc.
    destruct (isspace c) eqn:Hs; [reflexivity|]. exfalso.
    assert (Hin : In c (filter (fun c => negb (isspace c)) (or_empty text)))
      by (apply filter_In; rewrite Hs; auto).
    rewrite <- K in Hin. exact Hin.
  - intro H. rewrite normalise_spaces_squash. unfold strip.
    rewrite (lstrip_all_space _ H). reflexivity.
Qed.

End NormaliseProperties.

(* ================================================================== *)
(** ** Further properties: the counters and the score *)

Section StatsProperties.
Context {U : Unicode}.

Lemma count_row_counts (s : stats) (c : contact) (k : counter) :
  count_row s c k = s k + (if counts k c then 1 else 0).
Proof.
  unfold count_row, incr, counts.
  destruct k, (is_empty (name c)), (is_empty (email c)), (is_valid_email (email c)),
    (is_empty (phone c)), (is_valid_uk_phone (phone c)), (is_empty (company c));
    simpl; lia.
Qed.

Lemma count_rows_counts (l : list contact) (s : stats) (k : counter) :
  fold_left count_row l s k = s k + length (filter (counts k) l).
Proof.
  revert s. induction l as [|c l IH]; intro s; simpl; [lia|].
  rewrite IH, count_row_counts. destruct (counts k c); simpl; lia.
Qed.

Lemma stats_loop_from (contacts : list row) (cl : list contact) (s : stats) :
  fold_left stats_step contacts (cl, s)
  = (cl ++ map clean_contact contacts,
     fold_left count_row (map clean_contact contacts) s).
Proof.
  revert cl s. induction contacts as [|r l IH]; intros cl s; simpl.
  - rewrite app_nil_r. reflexivity.
  - rewrite IH, <- app_assoc. reflexivity.
Qed.

(** X5: the first loop of [main] builds the list of the cleaned rows, in
    the order of the rows, and leaves in each counter the number of cleaned
    records that meet the test of the counter; [total] is the number of
    rows. *)
Theorem stats_loop_counts (contacts : list row) :
  fst (stats_loop contacts) = map clean_contact contacts
  /\ (forall k, snd (stats_loop contacts) k
                = length (filter (counts k) (map clean_contact contacts)))
  /\ snd (stats_loop contacts) total = length contacts.
Proof.
  unfold stats_loop. rewrite stats_loop_from. simpl.
  split; [reflexivity|]. split.
  - intro k. rewrite count_rows_counts. reflexivity.
  - rewrite count_rows_counts. simpl.
    rewrite forallb_filter_id, length_map; [reflexivity|].
    apply forallb_forall. reflexivity.
Qed.

Lemma filter_exclusive {A : Type} (p q : A -> bool) (l : list A) :
  (forall x, p x && q x = false) ->
  length (filter p l) + length (filter q l) <= length l.
Proof.
  intro H. induction l as [|x l IH]; simpl; [lia|].
  specialize (H x). destruct (p x), (q x); simpl in *; try discriminate; lia.
Qed.

(** X6: at the end of the first loop no counter exceeds [total], and for
    the email as for the phone the missing and the invalid counter together
    do not exceed it. *)
Theorem stats_loop_bounds (contacts : list row) :
  let s := snd (stats_loop contacts) in
  (forall k, s k <= s total)
  /\ s missing_email + s invalid_email <= s total
  /\ s missing_phone + s invalid_phone <= s total.
Proof.
  intro s. unfold s, stats_loop. rewrite stats_loop_from. simpl.
  assert (T : forall l : list contact, length (filter (counts total) l) = length l).
  { intro l. induction l; simpl; auto. }
  rewrite !count_rows_counts, T. simpl. split; [|split].
  - intro k. rewrite count_rows_counts. simpl. apply filter_length_le.
  - apply filter_exclusive. intro c. simpl. destruct (is_empty (email c)); reflexivity.
  - apply filter_exclusive. intro c. simpl. destruct (is_empty (phone c)); reflexivity.
Qed.

(** X7: the completeness score is the number of fields that are not empty,
    so it is at most 4, it is 4 exactly when no field is empty and 0
    exactly when all are. *)
Theorem completeness_score_range (c : contact) :
  completeness_score c
  = length (filter (fun f => negb (is_empty f)) [name c; email c; phone c; company c])
  /\ completeness_score c <= 4
  /\ (completeness_score c = 4 <->
      name c <> [] /\ email c <> [] /\ phone c <> [] /\ company c <> [])
  /\ (completeness_score c = 0 <->
      name c = [] /\ email c = [] /\ phone c = [] /\ company c = []).
Proof.
  unfold completeness_score. simpl.
  destruct (name c), (email c), (phone c), (company c); simpl;
    repeat split; try lia; try discriminate; try reflexivity;
    try (intros (? & ? & ? & ?); congruence); intro; congruence.
Qed.

End StatsProperties.

(* ================================================================== *)
(** ** Further properties: phones *)

Section PhoneProperties.
Context {U : Unicode}.

(** In the database no decimal digit is a whitespace character. *)
Hypothesis digits_not_space :
  forall c, (128 <= c)%N -> uni_isdecimal c = true -> uni_isspace c = false.

Lemma clean_phone_of_kept (phone : option str) :
  clean_phone phone =
  let kept := filter digit_or_plus (or_empty phone) in
  filter isdecimal
    (if startswith kept (lit "+44") then lit "0" ++ skipn 3 kept else kept).
Proof.
  rewrite clean_phone_unfold. cbv zeta.
  rewrite (filter_kept_normalise_spaces digits_not_space). reflexivity.
Qed.

(** X8: the result of [clean_phone] depends on the digits and the plus
    signs of the input only: two inputs with the same digits and plus
    signs in the same order, whatever separates them, clean to the same
    phone. *)
Theorem clean_phone_separators (a b : option str) :
  filter digit_or_plus (or_empty a) = filter digit_or_plus (or_empty b) ->
  clean_phone a = clean_phone b.
Proof. intro E. rewrite !clean_phone_of_kept. cbv zeta. rewrite E. reflexivity. Qed.

Lemma filter_decimal_kept (s : str) :
  filter isdecimal (filter digit_or_plus s) = filter isdecimal s.
Proof.
  induction s as [|c t IH]; simpl; [reflexivity|]. unfold digit_or_plus at 1.
  destruct (isdecimal c) eqn:Hc; simpl.
  - rewrite Hc, IH. reflexivity.
  - destruct (c =? 43)%N; simpl; [rewrite Hc|]; exact IH.
Qed.

(** X9: the cleaned phone is empty exactly when the input has no decimal
    digit; an input of [+44] alone cleans to [0]. *)
Theorem clean_phone_empty (phone : str) :
  clean_phone (Some phone) = [] <-> Forall (fun c => isdecimal c = false) phone.
Proof.
  rewrite clean_phone_of_kept. cbv zeta. simpl or_empty.
  set (kept := filter digit_or_plus phone).
  assert (Hd : filter isdecimal kept = [] <-> Forall (fun c => isdecimal c = false) phone).
  { unfold kept. rewrite filter_decimal_kept. split.
    - intro E. apply Forall_forall. intros c Hc.
      destruct (isdecimal c) eqn:Hx; [|reflexivity]. exfalso.
      assert (Hin : In c (filter isdecimal phone)) by (apply filter_In; auto).
      rewrite E in Hin. exact Hin.
    - intro H. induction H as [|c t Hc _ IH]; simpl; [reflexivity|].
      rewrite Hc. exact IH. }
  destruct (startswith kept (lit "+44")) eqn:Hs; [|exact Hd].
  split.
  - intro E. vm_compute in E. fold (filter isdecimal (skipn 3 kept)) in E.
    discriminate E.
  - intro H. exfalso. destruct kept as [|c1 [|c2 k]] eqn:Ek; simpl in Hs;
      try discriminate Hs; [rewrite andb_false_r in Hs; discriminate Hs|].
    apply andb_true_iff in Hs as [_ Hs].
    apply andb_true_iff in Hs as [Hs _]. apply N.eqb_eq in Hs. subst c2.
    assert (Hin : In 52%N kept) by (rewrite Ek; simpl; auto).
    unfold kept in Hin. apply filter_In in Hin as [Hin _].
    pose proof (proj1 (Forall_forall _ _) H _ Hin) as K. discriminate K.
Qed.

(** In the database a decimal digit is a digit for [str.isdigit]. *)
Hypothesis decimal_is_digit :
  forall c, (128 <= c)%N -> uni_isdecimal c = true -> uni_isdigit c = true.

Lemma isdigit_decimals (d : str) :
  Forall (fun c => isdecimal c = true) d -> isdigit d = negb (is_empty d).
Proof.
  intro H. destruct d as [|c t]; [reflexivity|]. unfold isdigit. simpl negb.
  apply forallb_forall. intros x Hx.
  pose proof (proj1 (Forall_forall _ _) H x Hx) as K.
  unfold isdecimal in K. unfold isdigit_char, is_ascii in *.
  destruct (N.ltb_spec x 128); [exact K|]. apply decimal_is_digit; assumption.
Qed.

Lemma valid_uk_phone_decimals (d : str) :
  Forall (fun c => isdecimal c = true) d ->
  is_valid_uk_phone d
  = startswith d (lit "0") && (Nat.leb 10 (length d) && Nat.leb (length d) 11).
Proof.
  intro H. unfold is_valid_uk_phone. rewrite (isdigit_decimals _ H).
  destruct d; reflexivity.
Qed.

(** X10: a cleaned phone always passes the digits test of
    [is_valid_uk_phone]: it is valid exactly when it starts with [0] and
    has 10 or 11 characters. *)
Theorem cleaned_phone_validity (phone : option str) :
  is_valid_uk_phone (clean_phone phone)
  = startswith (clean_phone phone) (lit "0")
    && (Nat.leb 10 (length (clean_phone phone))
        && Nat.leb (length (clean_phone phone)) 11).
Proof. apply valid_uk_phone_decimals, clean_phone_digits. Qed.

(** X11: an input whose digits and plus signs are [+44] and then [n]
    digits is valid after cleaning exactly when [n] is 9 or 10; one whose
    digits are [0044] and then [n] digits is valid exactly when [n] is 6
    or 7, so the [0044] form of a number of 9 or 10 national digits is
    counted as not valid. *)
Theorem uk_prefix_validity (phone d : str) :
  Forall (fun c => isdecimal c = true) d ->
  (filter digit_or_plus phone = lit "+44" ++ d ->
   clean_phone (Some phone) = lit "0" ++ d
   /\ is_valid_uk_phone (clean_phone (Some phone))
      = Nat.leb 9 (length d) && Nat.leb (length d) 10)
  /\ (filter digit_or_plus phone = lit "0044" ++ d ->
      clean_phone (Some phone) = lit "0044" ++ d
      /\ is_valid_uk_phone (clean_phone (Some phone))
         = Nat.leb 6 (length d) && Nat.leb (length d) 7).
Proof.
  intro Hd.
  assert (Fd : filter isdecimal d = d).
  { induction Hd as [|c t Hc _ IH]; simpl; [reflexivity|]. rewrite Hc, IH. reflexivity. }
  split; intro E.
  - assert (E' : clean_phone (Some phone) = lit "0" ++ d).
    { rewrite clean_phone_of_kept. cbv zeta. simpl or_empty. rewrite E.
      vm_compute startswith. cbv iota.
      change (skipn 3 (lit "+44" ++ d)) with d.
      change (filter isdecimal (lit "0" ++ d)) with (48%N :: filter isdecimal d).
      rewrite Fd. reflexivity. }
    split; [exact E'|]. rewrite (valid_uk_phone_decimals _ (clean_phone_digits (Some phone))), E'. simpl.
    destruct (length d) as [|[|[|[|[|[|[|[|[|[|[|n]]]]]]]]]]]; reflexivity.
  - assert (E' : clean_phone (Some phone) = lit "0044" ++ d).
    { rewrite clean_phone_of_kept. cbv zeta. simpl or_empty. rewrite E.
      vm_compute startswith. cbv iota.
      change (filter isdecimal (lit "0044" ++ d))
        with (48%N :: 48%N :: 52%N :: 52%N :: filter isdecimal d).
      rewrite Fd. reflexivity. }
    split; [exact E'|]. rewrite (valid_uk_phone_decimals _ (clean_phone_digits (Some phone))), E'. simpl.
    destruct (length d) as [|[|[|[|[|[|[|[|n]]]]]]]]; reflexivity.
Qed.

End PhoneProperties.

(* ================================================================== *)
(** ** Further properties: names and emails on ASCII *)

Section NameProperties.
Context {U : Unicode}.

Lemma join_map_tail (sep : char) (f : str -> str) (w : str) (ws : list str) :
  join [sep] (map f (w :: ws))
  = f w ++ match ws with [] => [] | _ => sep :: join [sep] (map f ws) end.
Proof. destruct ws; simpl; [rewrite app_nil_r|]; reflexivity. Qed.

(** The parts of a word, capitalised and joined, are the word mapped
    character by character. *)
Lemma word_parts (w : str) :
  all_ascii w ->
  match split 45%N w with
  | p :: ps =>
      let tail := match ps with
                  | [] => []
                  | _ => 45%N :: join [45%N] (map capitalise_part ps)
                  end in
      ascii_capitalise p ++ tail = ascii_word true w
      /\ map low p ++ tail = ascii_word false w
  | [] => False
  end.
Proof.
  induction 1 as [|c t Hc Ht IH]; [split; reflexivity|].
  pose proof (all_ascii_split 45%N t Ht) as Hp.
  simpl split. destruct (split 45%N t) as [|p' ps'] eqn:E; [destruct IH|].
  cbv zeta in IH. destruct IH as [IH1 IH2].
  inversion Hp as [|? ? Hp' _]; subst.
  destruct (N.eqb_spec c 45) as [->|Hne].
  - cbv zeta. rewrite join_map_tail, (capitalise_part_ascii p' Hp').
    split; exact (f_equal (cons 45%N) IH1).
  - cbv zeta. apply N.eqb_neq in Hne. cbn [ascii_word]. rewrite Hne. split.
    + exact (f_equal (cons (up c)) IH2).
    + exact (f_equal (cons (low c)) IH2).
Qed.

Lemma name_word_ascii (w : str) : all_ascii w -> name_word w = ascii_word true w.
Proof.
  intro H. pose proof (word_parts w H) as P. unfold name_word.
  change (lit "-") with [45%N].
  pose proof (all_ascii_split 45%N w H) as Hp.
  destruct (split 45%N w) as [|p ps]; [destruct P|].
  cbv zeta in P. destruct P as [P _]. inversion Hp; subst.
  rewrite join_map_tail, capitalise_part_ascii by assumption. exact P.
Qed.

Lemma name_words (n : str) :
  all_ascii n ->
  match split 32%N n with
  | p :: ps =>
      forall b,
        ascii_word b p
        ++ match ps with
           | [] => []
           | _ => 32%N :: join [32%N] (map name_word ps)
           end
        = ascii_name b n
  | [] => False
  end.
Proof.
  induction 1 as [|c t Hc Ht IH]; [intro b; reflexivity|].
  pose proof (all_ascii_split 32%N t Ht) as Hp.
  simpl split. destruct (split 32%N t) as [|p' ps'] eqn:E; [destruct IH|].
  inversion Hp as [|? ? Hp' _]; subst.
  destruct (N.eqb_spec c 32) as [->|Hne]; intro b.
  - rewrite join_map_tail, (name_word_ascii p' Hp').
    destruct b; exact (f_equal (cons 32%N) (IH true)).
  - apply N.eqb_neq in Hne. cbn [ascii_word ascii_name app]. rewrite Hne. cbn [orb].
    exact (f_equal (cons (if b then up c else low c)) (IH (c =? 45)%N)).
Qed.

Lemma clean_name_ascii (s : str) :
  all_ascii s -> clean_name (Some s) = ascii_name true (normalise_spaces (Some s)).
Proof.
  intro H. rewrite clean_name_unfold.
  pose proof (all_ascii_normalise_spaces s H) as Hn.
  set (n := normalise_spaces (Some s)) in *.
  destruct (is_empty n) eqn:En; [destruct n; [reflexivity|discriminate]|].
  pose proof (name_words n Hn) as P. pose proof (all_ascii_split 32%N n Hn) as Hp.
  destruct (split 32%N n) as [|p ps]; [destruct P|]. inversion Hp; subst.
  rewrite join_map_tail, name_word_ascii by assumption. apply P.
Qed.

Lemma ascii_name_nth (b : bool) (s : str) (i : nat) (c : char) :
  nth_error s i = Some c ->
  nth_error (ascii_name b s) i
  = Some (if match i with 0 => b | S _ => starts_part s i end
          then up c else low c).
Proof.
  revert b i. induction s as [|x t IH]; intros b i H; [destruct i; discriminate|].
  destruct i as [|j]; simpl in H |- *.
  - injection H as ->. reflexivity.
  - rewrite (IH _ _ H). destruct j as [|k]; reflexivity.
Qed.

Lemma ascii_name_length (b : bool) (s : str) : length (ascii_name b s) = length s.
Proof. revert b. induction s; intro b; simpl; auto. Qed.

(** X12: on a string of ASCII characters [clean_name] maps the normalised
    string character by character: the result has its length, a character
    at the start or after a space or a hyphen is upper-cased and every
    other character is lower-cased. *)
Theorem clean_name_capitalises_parts (s : str) :
  all_ascii s ->
  let n := normalise_spaces (Some s) in
  length (clean_name (Some s)) = length n
  /\ forall i c,
       nth_error n i = Some c ->
       nth_error (clean_name (Some s)) i
       = Some (if starts_part n i then up c else low c).
Proof.
  intros Ha n. rewrite (clean_name_ascii s Ha). fold n. split.
  - apply ascii_name_length.
  - intros i c H. rewrite (ascii_name_nth true n i c H). destruct i; reflexivity.
Qed.

Lemma isspace_low (c : char) : is_ascii c = true -> isspace (low c) = isspace c.
Proof. intro H. apply (alike_low c H). Qed.

Lemma lstrip_map_low (s : str) : all_ascii s -> lstrip (map low s) = map low (lstrip s).
Proof.
  induction 1 as [|c t Hc _ IH]; simpl; [reflexivity|].
  rewrite (isspace_low c Hc). destruct (isspace c); [exact IH|reflexivity].
Qed.

Lemma rstrip_map_low (s : str) : all_ascii s -> rstrip (map low s) = map low (rstrip s).
Proof.
  induction 1 as [|c t Hc _ IH]; simpl; [reflexivity|].
  rewrite IH, (isspace_low c Hc). destruct (rstrip t); simpl; [|reflexivity].
  destruct (isspace c); reflexivity.
Qed.

Lemma squash_map_low (b : bool) (s : str) :
  all_ascii s -> squash b (map low s) = map low (squash b s).
Proof.
  intro H. revert b. induction H as [|c t Hc _ IH]; intro b; simpl; [reflexivity|].
  rewrite (isspace_low c Hc). destruct (isspace c); [destruct b|]; simpl;
    rewrite IH; reflexivity.
Qed.

Lemma normalise_spaces_map_low (s : str) :
  all_ascii s ->
  normalise_spaces (Some (map low s)) = map low (normalise_spaces (Some s)).
Proof.
  intro H. rewrite !normalise_spaces_squash. simpl or_empty. unfold strip.
  rewrite lstrip_map_low by exact H.
  rewrite rstrip_map_low by (apply all_ascii_lstrip, H).
  apply squash_map_low, all_ascii_rstrip, all_ascii_lstrip, H.
Qed.

(** X13: on strings of ASCII characters [clean_email] does not see the
    case of the letters: two inputs that are equal once lower-cased clean
    to the same email, and the cleaned email has no capital letter. *)
Theorem clean_email_ignores_case (a b : str) :
  all_ascii a -> all_ascii b ->
  (map low a = map low b -> clean_email (Some a) = clean_email (Some b))
  /\ Forall (fun c => ascii_upper c = false) (clean_email (Some a)).
Proof.
  intros Ha Hb. split.
  - intro E. rewrite (clean_email_ascii a Ha), (clean_email_ascii b Hb).
    rewrite <- !normalise_spaces_map_low by assumption. rewrite E. reflexivity.
  - rewrite (clean_email_ascii a Ha). apply Forall_forall. intros c Hc.
    apply in_map_iff in Hc as (x & <- & _). unfold low, ascii_upper. code_cases.
Qed.

End NameProperties.

(* ================================================================== *)
(** ** Further properties: the deduplication *)

Lemma str_in_In (k : str) (l : list str) : str_in k l = true <-> In k l.
Proof.
  unfold str_in. rewrite existsb_exists. split.
  - intros (x & Hx & E). apply str_eqb_eq in E. subst. exact Hx.
  - intro H. exists k. split; [exact H|apply str_eqb_refl].
Qed.

Lemma dict_get_app_some {V : Type} (d e : dict V) (k : str) (v : V) :
  dict_get d k = Some v -> dict_get (d ++ e) k = Some v.
Proof.
  induction d as [|[k' v'] d IH]; simpl; [discriminate|].
  destruct (str_eqb k' k); auto.
Qed.

Lemma dict_get_app_none {V : Type} (d e : dict V) (k : str) :
  dict_get d k = None -> dict_get (d ++ e) k = dict_get e k.
Proof.
  induction d as [|[k' v'] d IH]; simpl; [reflexivity|].
  destruct (str_eqb k' k); [discriminate|auto].
Qed.

Lemma dict_set_length_present {V : Type} (d : dict V) (k : str) (v x : V) :
  dict_get d k = Some x -> length (dict_set d k v) = length d.
Proof.
  intro H. rewrite <- (length_map fst (dict_set d k v)), <- (length_map fst d).
  f_equal. exact (dict_set_keys_present d k v x H).
Qed.

Lemma dict_In_get {V : Type} (d : dict V) (k : str) (v : V) :
  NoDup (dict_keys d) -> In (k, v) d -> dict_get d k = Some v.
Proof.
  intros Hnd Hin. apply In_nth_error in Hin as (i & Hi).
  exact (dict_nth_get d i k v Hnd Hi).
Qed.

Lemma filter_implied {A : Type} (p q : A -> bool) (l : list A) :
  (forall x, p x = true -> q x = true) -> filter p (filter q l) = filter p l.
Proof.
  intro H. induction l as [|x l IH]; simpl; [reflexivity|].
  destruct (q x) eqn:Hq; simpl.
  - rewrite IH. reflexivity.
  - destruct (p x) eqn:Hp; [rewrite (H x Hp) in Hq; discriminate|exact IH].
Qed.

Lemma filter_both {A : Type} (p q : A -> bool) (l : list A) :
  filter p (filter q l) = filter (fun x => q x && p x) l.
Proof.
  induction l as [|x l IH]; simpl; [reflexivity|].
  destruct (q x); simpl; [destruct (p x)|]; rewrite IH; reflexivity.
Qed.

Lemma map_fst_combine {A B : Type} (l : list A) (l' : list B) :
  length l = length l' -> map fst (combine l l') = l.
Proof.
  revert l'. induction l as [|x l IH]; intros [|y l'] H; simpl in *;
    try discriminate; [reflexivity|]. f_equal. apply IH. lia.
Qed.

Lemma map_snd_combine {A B : Type} (l : list A) (l' : list B) :
  length l = length l' -> map snd (combine l l') = l'.
Proof.
  revert l'. induction l as [|x l IH]; intros [|y l'] H; simpl in *;
    try discriminate; [reflexivity|]. f_equal. apply IH. lia.
Qed.

Section DedupeProperties.
Context {U : Unicode}.

(** A record whose key is new goes to the end of [deduped]. *)
Lemma dedupe_step_absent (d : dict object) (n : nat) (c : object) :
  dict_get d (key_of c) = None ->
  dedupe_step (d, n) c = (d ++ [(key_of c, c)], n).
Proof.
  unfold key_of, dedupe_step, dict_mem.
  destruct (is_empty (email (fields c))); intro H.
  - rewrite (dict_set_absent d _ c H). reflexivity.
  - rewrite H. simpl. rewrite (dict_set_absent d _ c H). reflexivity.
Qed.

(** A record with an email that is a key already is counted. *)
Lemma dedupe_step_present (d : dict object) (n : nat) (c x : object) :
  no_email c = false -> dict_get d (key_of c) = Some x ->
  dedupe_step (d, n) c
  = ((if Nat.ltb (completeness_score (fields x)) (completeness_score (fields c))
      then dict_set d (key_of c) c else d), S n).
Proof.
  unfold no_email, key_of. intros He H. rewrite He in *.
  apply dedupe_step_existing; [|exact H].
  destruct (email (fields c)); [discriminate|discriminate].
Qed.

Lemma dedupe_step_keys_eq (d : dict object) (n : nat) (c : object) :
  dict_keys (fst (dedupe_step (d, n) c))
  = if str_in (key_of c) (dict_keys d) then dict_keys d
    else dict_keys d ++ [key_of c].
Proof.
  destruct (str_in (key_of c) (dict_keys d)) eqn:E.
  - apply str_in_In in E.
    destruct (dedupe_step_cases d n c) as [[-> _]| ->]; [reflexivity|].
    rewrite dict_set_keys. rewrite (proj2 (dict_mem_keys d _) E). reflexivity.
  - assert (Hn : ~ In (key_of c) (dict_keys d)).
    { intro H. apply str_in_In in H. congruence. }
    destruct (dedupe_step_cases d n c) as [[_ H]| ->]; [contradiction|].
    rewrite dict_set_keys. destruct (dict_mem d (key_of c)) eqn:M; [|reflexivity].
    apply dict_mem_keys in M. contradiction.
Qed.

(** The keys stand in [deduped] in the order in which they are first
    seen. *)
Lemma dedupe_loop_first_seen (l : list object) (d : dict object) (n : nat) :
  dict_keys (fst (fold_left dedupe_step l (d, n)))
  = dict_keys d
    ++ filter (fun k => negb (str_in k (dict_keys d))) (first_seen (map key_of l)).
Proof.
  revert d n. induction l as [|c l IH]; intros d n.
  - simpl. rewrite app_nil_r. reflexivity.
  - cbn [fold_left map first_seen]. destruct (dedupe_step (d, n) c) as [d' n'] eqn:E.
    rewrite IH. pose proof (dedupe_step_keys_eq d n c) as K. rewrite E in K.
    cbn [fst] in K. rewrite K. cbn [filter].
    destruct (str_in (key_of c) (dict_keys d)) eqn:Hin; cbn [negb].
    + f_equal. symmetry. apply filter_implied. intros x Hx.
      apply negb_true_iff in Hx. apply negb_true_iff, str_eqb_neq. intros ->.
      congruence.
    + rewrite <- app_assoc. apply (f_equal (fun t => dict_keys d ++ t)).
      apply (f_equal (cons (key_of c))). rewrite filter_both.
      apply filter_ext. intro x. unfold str_in. rewrite existsb_app. simpl.
      rewrite orb_false_r, negb_orb. apply andb_comm.
Qed.

(** In the database lower-casing a character outside ASCII never gives the
    capital N of ASCII, with which the keys of the records without email
    start. *)
Hypothesis lower_not_capital :
  forall before c after, (128 <= c)%N -> ~ In 78%N (uni_tolower before c after).

Lemma dedupe_inv_step (seen rest : list object) (d : dict object) (n : nat) (c : object) :
  NoDup (map obj_id (seen ++ c :: rest)) ->
  Forall (fun c => ~ In 78%N (email (fields c))) (seen ++ c :: rest) ->
  dedupe_inv seen (d, n) ->
  dedupe_inv (seen ++ [c]) (dedupe_step (d, n) c).
Proof.
  intros Hnd H78 (I1 & I3 & I4). cbn [fst snd] in *.
  assert (Hc78 : ~ In 78%N (email (fields c))).
  { apply Forall_app in H78 as [_ H]. inversion H; assumption. }
  assert (Hs78 : forall v, In v seen -> ~ In 78%N (email (fields v))).
  { apply Forall_app in H78 as [H _]. apply Forall_forall. exact H. }
  destruct (dict_get d (key_of c)) as [x|] eqn:G.
  - pose proof (dict_get_In _ _ _ G) as Hx. destruct (I1 _ _ Hx) as [Hk Hxs].
    destruct (key_clash seen rest x c Hnd (Hs78 x Hxs) Hc78 Hxs (eq_sym Hk))
      as [_ Hce].
    rewrite (dedupe_step_present d n c x Hce G). unfold dedupe_inv. cbn [fst snd].
    destruct (Nat.ltb_spec (completeness_score (fields x))
                (completeness_score (fields c))) as [Hlt|Hge].
    + split; [|split].
      * intros k v H. rewrite in_app_iff.
        apply dict_set_In in H as [H|H].
        -- injection H as -> ->. simpl. auto.
        -- destruct (I1 _ _ H). auto.
      * intros c' Hc'. apply in_app_or in Hc' as [Hc'|[<-|[]]].
        -- destruct (I3 c' Hc') as (v & Hv & Hle).
           destruct (str_eq_dec (key_of c) (key_of c')) as [E|E].
           ++ exists c. rewrite <- E, dict_set_get_same. split; [reflexivity|].
              rewrite <- E, G in Hv. injection Hv as <-. lia.
           ++ exists v. rewrite dict_set_get_other by exact E. auto.
        -- exists c. rewrite dict_set_get_same. auto.
      * rewrite length_app, (dict_set_length_present d _ c x G). simpl. lia.
    + split; [|split].
      * intros k v H. rewrite in_app_iff. destruct (I1 _ _ H). auto.
      * intros c' Hc'. apply in_app_or in Hc' as [Hc'|[<-|[]]].
        -- exact (I3 c' Hc').
        -- exists x. auto.
      * rewrite length_app. simpl. lia.
  - rewrite (dedupe_step_absent d n c G). unfold dedupe_inv. cbn [fst snd].
    split; [|split].
    + intros k v H. rewrite in_app_iff. apply in_app_or in H as [H|[H|[]]].
      * destruct (I1 _ _ H). auto.
      * injection H as <- <-. simpl. auto.
    + intros c' Hc'. apply in_app_or in Hc' as [Hc'|[<-|[]]].
      * destruct (I3 c' Hc') as (v & Hv & Hle). exists v.
        split; [apply dict_get_app_some, Hv|exact Hle].
      * exists c. rewrite dict_get_app_none by exact G. simpl.
        rewrite str_eqb_refl. auto.
    + rewrite !length_app. simpl. lia.
Qed.

Lemma dedupe_inv_loop (l seen : list object) (st : dict object * nat) :
  NoDup (map obj_id (seen ++ l)) ->
  Forall (fun c => ~ In 78%N (email (fields c))) (seen ++ l) ->
  dedupe_inv seen st ->
  dedupe_inv (seen ++ l) (fold_left dedupe_step l st).
Proof.
  revert seen st. induction l as [|c l IH]; intros seen st Hnd H78 I.
  - rewrite app_nil_r. exact I.
  - cbn [fold_left]. replace (seen ++ c :: l) with ((seen ++ [c]) ++ l) in *
      by (rewrite <- app_assoc; reflexivity).
    apply IH; try assumption. destruct st as [d n].
    rewrite <- app_assoc in Hnd, H78. apply (dedupe_inv_step seen l); assumption.
Qed.

Lemma dedupe_inv_end (cs : list object) :
  NoDup (map obj_id cs) ->
  Forall (fun c => cleaned (fields c)) cs ->
  dedupe_inv cs (dedupe_loop cs).
Proof.
  intros Hnd Hcl. apply (dedupe_inv_loop cs [] ([], 0)); simpl.
  - exact Hnd.
  - eapply Forall_impl; [|exact Hcl]. intros c.
    apply (cleaned_email_no_capital lower_not_capital).
  - unfold dedupe_inv. simpl. split; [|split].
    + intros k v [].
    + intros c [].
    + reflexivity.
Qed.

Lemma dedupe_keys_of_values (cs : list object) :
  NoDup (map obj_id cs) ->
  Forall (fun c => cleaned (fields c)) cs ->
  map key_of (deduped_contacts cs) = dict_keys (fst (dedupe_loop cs)).
Proof.
  intros Hnd Hcl. destruct (dedupe_inv_end cs Hnd Hcl) as (I1 & _).
  unfold deduped_contacts, dict_values, dict_keys. rewrite map_map.
  apply map_ext_in. intros [k v] Hin. simpl. symmetry. apply (I1 _ _ Hin).
Qed.

(** X14: each record read either adds a record to the output or is counted
    in [duplicates_removed]: the output and the counter together make the
    number of records read. *)
Theorem dedupe_conservation (cleaned_contacts : list object) :
  NoDup (map obj_id cleaned_contacts) ->
  Forall (fun c => cleaned (fields c)) cleaned_contacts ->
  length (deduped_contacts cleaned_contacts) + duplicates_removed cleaned_contacts
  = length cleaned_contacts.
Proof.
  intros Hnd Hcl. destruct (dedupe_inv_end _ Hnd Hcl) as (_ & _ & I4).
  unfold deduped_contacts, duplicates_removed, dict_values. rewrite length_map.
  exact I4.
Qed.

(** X15: the record that the output holds for an email is one of the most
    complete: no record of the input with that email has a higher score. *)
Theorem dedupe_keeps_most_complete (cleaned_contacts : list object) (v c : object) :
  NoDup (map obj_id cleaned_contacts) ->
  Forall (fun c => cleaned (fields c)) cleaned_contacts ->
  In v (deduped_contacts cleaned_contacts) ->
  In c cleaned_contacts ->
  email (fields v) <> [] ->
  email (fields c) = email (fields v) ->
  completeness_score (fields c) <= completeness_score (fields v).
Proof.
  intros Hnd Hcl Hv Hc Hne He.
  destruct (dedupe_inv_end _ Hnd Hcl) as (I1 & I3 & _).
  destruct (I3 c Hc) as (v' & Hg & Hle).
  unfold deduped_contacts, dict_values in Hv.
  apply in_map_iff in Hv as ([k v0] & Hk & Hin). simpl in Hk. subst v0.
  destruct (I1 _ _ Hin) as [-> _].
  assert (Hkey : key_of c = key_of v).
  { unfold key_of. rewrite He. destruct (email (fields v)); [congruence|reflexivity]. }
  rewrite Hkey in Hg.
  assert (Hkeys : NoDup (dict_keys (fst (dedupe_loop cleaned_contacts))))
    by (apply dedupe_loop_nodup; constructor).
  rewrite (dict_In_get _ _ _ Hkeys Hin) in Hg.
  injection Hg as <-. exact Hle.
Qed.

(** X16: no email is lost and none is left twice: each non-empty email of
    the input is the email of a record of the output, and two records at
    different places of the output never share a non-empty email. *)
Theorem dedupe_emails_unique (cleaned_contacts : list object) :
  NoDup (map obj_id cleaned_contacts) ->
  Forall (fun c => cleaned (fields c)) cleaned_contacts ->
  (forall c, In c cleaned_contacts -> email (fields c) <> [] ->
     exists v, In v (deduped_contacts cleaned_contacts)
               /\ email (fields v) = email (fields c))
  /\ (forall i j u v,
        nth_error (deduped_contacts cleaned_contacts) i = Some u ->
        nth_error (deduped_contacts cleaned_contacts) j = Some v ->
        email (fields u) <> [] ->
        email (fields u) = email (fields v) ->
        i = j).
Proof.
  intros Hnd Hcl. destruct (dedupe_inv_end _ Hnd Hcl) as (I1 & I3 & _).
  assert (H78 : forall c, In c cleaned_contacts -> ~ In 78%N (email (fields c))).
  { intros c Hc. apply (cleaned_email_no_capital lower_not_capital).
    exact (proj1 (Forall_forall _ _) Hcl c Hc). }
  split.
  - intros c Hc Hne. destruct (I3 c Hc) as (v & Hg & _).
    apply dict_get_In in Hg. destruct (I1 _ _ Hg) as [Hk Hv].
    exists v. split; [apply (in_map snd) in Hg; exact Hg|].
    unfold key_of in Hk. destruct (email (fields c)) as [|x e] eqn:Ec; [congruence|].
    simpl in Hk. destruct (is_empty (email (fields v))); [|auto].
    exfalso. apply (H78 c Hc). rewrite Ec, Hk. apply noemail_key_capital.
  - intros i j u v Hu Hv Hne He.
    assert (Hkeys : NoDup (map key_of (deduped_contacts cleaned_contacts))).
    { rewrite (dedupe_keys_of_values _ Hnd Hcl). apply dedupe_loop_nodup. constructor. }
    apply (proj1 (NoDup_nth_error _) Hkeys).
    + rewrite length_map. apply nth_error_Some. congruence.
    + rewrite !nth_error_map, Hu, Hv. simpl. f_equal. unfold key_of.
      rewrite <- He. destruct (email (fields u)); [congruence|reflexivity].
Qed.

(** X17: the output lists the records in the order in which their keys
    (the email, or the key of a record without email) are first seen in
    the input. *)
Theorem dedupe_order_first_seen (cleaned_contacts : list object) :
  NoDup (map obj_id cleaned_contacts) ->
  Forall (fun c => cleaned (fields c)) cleaned_contacts ->
  map key_of (deduped_contacts cleaned_contacts)
  = first_seen (map key_of cleaned_contacts).
Proof.
  intros Hnd Hcl. rewrite (dedupe_keys_of_values _ Hnd Hcl).
  unfold dedupe_loop. rewrite dedupe_loop_first_seen. simpl.
  apply forallb_filter_id, forallb_forall. reflexivity.
Qed.

Lemma dedupe_loop_fresh (l : list object) (d : dict object) (n : nat) :
  NoDup (map key_of l) ->
  (forall c, In c l -> ~ In (key_of c) (dict_keys d)) ->
  fold_left dedupe_step l (d, n) = (d ++ map (fun c => (key_of c, c)) l, n).
Proof.
  revert d. induction l as [|c l IH]; intros d Hnd Hfresh; cbn [fold_left map].
  - rewrite app_nil_r. reflexivity.
  - inversion Hnd as [|? ? Hc Hnd']; subst.
    rewrite dedupe_step_absent by (apply dict_get_none, Hfresh; simpl; auto).
    rewrite IH; [rewrite <- app_assoc; reflexivity|exact Hnd'|].
    intros c' Hc' Hin. unfold dict_keys in Hin. rewrite map_app in Hin.
    apply in_app_or in Hin as [Hin|[Hin|[]]].
    + apply (Hfresh c'); simpl; auto.
    + simpl in Hin. apply Hc. rewrite Hin. apply in_map, Hc'.
Qed.

(** X18: removing the duplicates of an output changes nothing: the second
    run gives the same records and counts no duplicate. *)
Theorem dedupe_idempotent (cleaned_contacts : list object) :
  NoDup (map obj_id cleaned_contacts) ->
  Forall (fun c => cleaned (fields c)) cleaned_contacts ->
  deduped_contacts (deduped_contacts cleaned_contacts)
  = deduped_contacts cleaned_contacts
  /\ duplicates_removed (deduped_contacts cleaned_contacts) = 0.
Proof.
  intros Hnd Hcl.
  assert (Hkeys : NoDup (map key_of (deduped_contacts cleaned_contacts))).
  { rewrite (dedupe_keys_of_values _ Hnd Hcl). apply dedupe_loop_nodup. constructor. }
  set (out := deduped_contacts cleaned_contacts) in *.
  unfold deduped_contacts, duplicates_removed, dedupe_loop.
  assert (F := dedupe_loop_fresh out [] 0 Hkeys (fun _ _ (H : False) => H)).
  cbv beta delta [dict] in F |- *. rewrite F.
  simpl. split; [|reflexivity]. unfold dict_values. rewrite map_map. simpl.
  apply map_id.
Qed.

(** X19: a run of [main] on rows held in dicts of distinct addresses counts
    every row in [total], writes rows and counts duplicates that together
    make [total], and writes only rows that are the cleaning of a row
    read. *)
Theorem run_main_accounts (addresses : list N) (contacts : list row) :
  NoDup addresses ->
  length addresses = length contacts ->
  let '(written, s, removed) := run_main addresses contacts in
  s total = length contacts
  /\ length written + removed = s total
  /\ Forall (fun c => In c (map clean_contact contacts)) written.
Proof.
  intros Hnd Hlen. unfold run_main.
  pose proof (stats_loop_from contacts [] stats0) as E. fold (stats_loop contacts) in E.
  rewrite E. cbn [List.app].
  set (cl := map clean_contact contacts).
  set (objs := combine addresses cl).
  assert (Hids : map obj_id objs = addresses).
  { unfold objs, obj_id. apply map_fst_combine. unfold cl. rewrite length_map. exact Hlen. }
  assert (Hflds : map fields objs = cl).
  { unfold objs, fields. apply map_snd_combine. unfold cl. rewrite length_map. exact Hlen. }
  assert (Hcl : Forall (fun c => cleaned (fields c)) objs).
  { apply Forall_forall. intros c Hc. apply (in_map fields) in Hc. rewrite Hflds in Hc.
    unfold cl in Hc. apply in_map_iff in Hc as (r & <- & _). exists r. reflexivity. }
  rewrite <- Hids in Hnd.
  destruct (dedupe_inv_end objs Hnd Hcl) as (I1 & _ & I4).
  destruct (dedupe_loop objs) as [d n] eqn:Ed. cbn [fst snd] in *.
  split; [|split].
  - rewrite count_rows_counts. simpl. unfold cl.
    rewrite forallb_filter_id, !length_map; [reflexivity|].
    apply forallb_forall. reflexivity.
  - rewrite count_rows_counts. simpl.
    rewrite forallb_filter_id by (apply forallb_forall; reflexivity).
    assert (Hobjs : length objs = length contacts).
    { etransitivity; [symmetry; exact (length_map obj_id objs)|].
      rewrite Hids. exact Hlen. }
    transitivity (length d + n);
      [unfold dict_values; rewrite !length_map; reflexivity|].
    etransitivity; [exact I4|]. etransitivity; [exact Hobjs|].
    unfold cl. symmetry. apply length_map.
  - apply Forall_forall. intros c Hc. unfold dict_values in Hc. rewrite map_map in Hc.
    apply in_map_iff in Hc as ([k v] & <- & Hin). simpl.
    destruct (I1 _ _ Hin) as [_ Hv]. apply (in_map fields) in Hv.
    rewrite Hflds in Hv. exact Hv.
Qed.

End DedupeProperties.

(* ================================================================== *)
(** ** Further properties: valid emails and missing columns *)

Section EmailProperties.
Context {U : Unicode}.

Lemma is_valid_email_matches (e : str) :
  is_valid_email e = true <-> matches email_pattern true (strip e).
Proof.
  unfold is_valid_email, re_match, matches.
  destruct (match_at email_pattern true (strip e)); split; congruence.
Qed.

(** The parts of a stripped string that the pattern matches. *)
Lemma valid_email_parts (s : str) :
  strip s = s ->
  (matches email_pattern true s <->
   exists l d t,
     s = l ++ 64%N :: d ++ 46%N :: t
     /\ l <> [] /\ d <> [] /\ t <> []
     /\ forallb not_at_or_space l = true
     /\ forallb not_at_or_space d = true
     /\ forallb not_at_or_space t = true).
Proof.
  intro Hs. rewrite matches_email_pattern. split.
  - intros (l & d & t & x & E & Hl & Hd & Ht & Pl & Pd & Pt & [->| ->]).
    + rewrite app_nil_r in E. exists l, d, t. repeat split; assumption.
    + exfalso. assert (H : isspace 10%N = false); [|discriminate H].
      apply (strip_last s (l ++ 64%N :: d ++ 46%N :: t)).
      rewrite Hs, E. rewrite <- !app_assoc. simpl. rewrite <- !app_assoc. reflexivity.
  - intros (l & d & t & E & Hl & Hd & Ht & Pl & Pd & Pt).
    exists l, d, t, []. rewrite app_nil_r. repeat split; auto.
Qed.

Lemma strip_strip (s : str) : strip (strip s) = strip s.
Proof.
  apply strip_fixed. destruct (strip s) as [|c t] eqn:E; [auto|right].
  destruct (exists_last (l:=c :: t)) as (r & d & Hr); [discriminate|].
  exists c, t, r, d. repeat split; [exact Hr| |].
  - exact (strip_head _ _ _ E).
  - rewrite Hr in E. exact (strip_last _ _ _ E).
Qed.

Lemma not_at_or_space_chars (l : str) (c : char) :
  forallb not_at_or_space l = true -> In c l -> c <> 64%N /\ isspace c = false.
Proof.
  intros H Hc. pose proof (proj1 (forallb_forall _ _) H c Hc) as K.
  unfold not_at_or_space in K. apply negb_true_iff, orb_false_iff in K as [K1 K2].
  apply N.eqb_neq in K1. auto.
Qed.

Lemma count_none (l : str) :
  forallb not_at_or_space l = true -> count_occ N.eq_dec l 64%N = 0.
Proof.
  intro H. apply count_occ_not_In. intro Hin.
  destruct (not_at_or_space_chars l 64%N H Hin) as [K _]. congruence.
Qed.

(** X20: a valid email has, once stripped, no whitespace character and
    exactly one [@], which is not its first character and after which a
    dot stands. *)
Theorem valid_email_shape (e : str) :
  is_valid_email e = true ->
  count_occ N.eq_dec (strip e) 64%N = 1
  /\ Forall (fun c => isspace c = false) (strip e)
  /\ exists l r, strip e = l ++ 64%N :: r /\ l <> [] /\ In 46%N r.
Proof.
  intro H. apply is_valid_email_matches in H.
  apply (valid_email_parts (strip e) (strip_strip e)) in H
    as (l & d & t & E & Hl & Hd & Ht & Pl & Pd & Pt).
  rewrite E. split; [|split].
  - rewrite count_occ_app. simpl. rewrite count_occ_app. simpl.
    rewrite (count_none l Pl), (count_none d Pd), (count_none t Pt). reflexivity.
  - apply Forall_app. split; [|constructor; [reflexivity|]].
    + apply Forall_forall. intros c Hc. apply (not_at_or_space_chars l c Pl Hc).
    + apply Forall_app. split; [|constructor; [reflexivity|]].
      * apply Forall_forall. intros c Hc. apply (not_at_or_space_chars d c Pd Hc).
      * apply Forall_forall. intros c Hc. apply (not_at_or_space_chars t c Pt Hc).
  - exists l, (d ++ 46%N :: t). split; [reflexivity|]. split; [exact Hl|].
    apply in_or_app. right. left. reflexivity.
Qed.

Lemma not_at_or_space_low (l : str) :
  all_ascii l ->
  forallb not_at_or_space (map low l) = forallb not_at_or_space l.
Proof.
  induction 1 as [|c t Hc _ IH]; simpl; [reflexivity|]. rewrite IH. f_equal.
  unfold not_at_or_space. rewrite (isspace_low c Hc). f_equal. f_equal.
  unfold is_ascii in Hc. unfold low, ascii_upper. code_cases.
Qed.

Lemma low_is (x c : char) :
  x = 64%N \/ x = 46%N -> low c = x -> c = x.
Proof. intros [->| ->]; unfold low, ascii_upper; intro H; code_cases. Qed.

Lemma all_ascii_app (a b : str) : all_ascii (a ++ b) <-> all_ascii a /\ all_ascii b.
Proof. apply Forall_app. Qed.

(** Lower-casing keeps the match of the pattern. *)
Lemma valid_parts_low (s : str) :
  all_ascii s ->
  ((exists l d t,
      map low s = l ++ 64%N :: d ++ 46%N :: t
      /\ l <> [] /\ d <> [] /\ t <> []
      /\ forallb not_at_or_space l = true
      /\ forallb not_at_or_space d = true
      /\ forallb not_at_or_space t = true)
   <->
   (exists l d t,
      s = l ++ 64%N :: d ++ 46%N :: t
      /\ l <> [] /\ d <> [] /\ t <> []
      /\ forallb not_at_or_space l = true
      /\ forallb not_at_or_space d = true
      /\ forallb not_at_or_space t = true)).
Proof.
  intro Ha. split.
  - intros (l & d & t & E & Hl & Hd & Ht & Pl & Pd & Pt).
    apply map_eq_app in E as (l' & r1 & -> & <- & E).
    destruct r1 as [|a r1]; [discriminate|]. simpl in E. injection E as Ea E.
    apply map_eq_app in E as (d' & r2 & -> & <- & E).
    destruct r2 as [|b t']; [discriminate|]. simpl in E. injection E as Eb <-.
    apply (low_is 64%N) in Ea; [|auto]. apply (low_is 46%N) in Eb; [|auto]. subst.
    apply all_ascii_app in Ha as [Al Ha]. inversion Ha as [|? ? _ Ha']; subst.
    apply all_ascii_app in Ha' as [Ad Ha']. inversion Ha' as [|? ? _ At]; subst.
    rewrite not_at_or_space_low in Pl, Pd, Pt by assumption.
    exists l', d', t'. repeat split; try assumption.
    + intros ->. apply Hl. reflexivity.
    + intros ->. apply Hd. reflexivity.
    + intros ->. apply Ht. reflexivity.
  - intros (l & d & t & -> & Hl & Hd & Ht & Pl & Pd & Pt).
    apply all_ascii_app in Ha as [Al Ha]. inversion Ha as [|? ? _ Ha']; subst.
    apply all_ascii_app in Ha' as [Ad Ha']. inversion Ha' as [|? ? _ At]; subst.
    exists (map low l), (map low d), (map low t).
    rewrite !not_at_or_space_low by assumption.
    repeat split; try assumption.
    + rewrite map_app. simpl. rewrite map_app. reflexivity.
    + destruct l; [congruence|discriminate].
    + destruct d; [congruence|discriminate].
    + destruct t; [congruence|discriminate].
Qed.

Lemma squash_no_space (s : str) :
  Forall (fun c => isspace c = false) (squash false s) -> squash false s = s.
Proof.
  induction s as [|c t IH]; simpl; [reflexivity|].
  destruct (isspace c) eqn:Hc; intro H; inversion H as [|? ? Hx Ht]; subst.
  - discriminate Hx.
  - rewrite (IH Ht). reflexivity.
Qed.

Lemma squash_fixed_no_space (s : str) :
  Forall (fun c => isspace c = false) s -> squash false s = s.
Proof.
  induction 1 as [|c t Hc _ IH]; simpl; [reflexivity|]. rewrite Hc, IH. reflexivity.
Qed.

Lemma valid_parts_no_space (s : str) :
  (exists l d t,
      s = l ++ 64%N :: d ++ 46%N :: t
      /\ l <> [] /\ d <> [] /\ t <> []
      /\ forallb not_at_or_space l = true
      /\ forallb not_at_or_space d = true
      /\ forallb not_at_or_space t = true) ->
  Forall (fun c => isspace c = false) s.
Proof.
  intros (l & d & t & -> & _ & _ & _ & Pl & Pd & Pt).
  apply Forall_app. split; [|constructor; [reflexivity|]].
  - apply Forall_forall. intros c Hc. apply (not_at_or_space_chars l c Pl Hc).
  - apply Forall_app. split; [|constructor; [reflexivity|]].
    + apply Forall_forall. intros c Hc. apply (not_at_or_space_chars d c Pd Hc).
    + apply Forall_forall. intros c Hc. apply (not_at_or_space_chars t c Pt Hc).
Qed.

(** X21: on a string of ASCII characters cleaning does not change the
    validity of an email: the cleaned email is valid exactly when the raw
    one is. *)
Theorem clean_email_keeps_validity (e : str) :
  all_ascii e ->
  is_valid_email (clean_email (Some e)) = is_valid_email e.
Proof.
  intro Ha.
  pose proof (all_ascii_rstrip _ (all_ascii_lstrip _ Ha)) as Hu. fold (strip e) in Hu.
  assert (Hy : clean_email (Some e) = map low (squash false (strip e))).
  { rewrite (clean_email_ascii e Ha), normalise_spaces_squash. reflexivity. }
  assert (Hfix : strip (clean_email (Some e)) = clean_email (Some e)).
  { rewrite (clean_email_ascii e Ha).
    apply (alike_normalised (normalise_spaces (Some e))).
    - apply alike_map; [apply alike_low|apply all_ascii_normalise_spaces, Ha].
    - apply normalised_normalise_spaces. }
  apply eq_true_iff_eq.
  rewrite !is_valid_email_matches.
  rewrite (valid_email_parts _ (strip_strip e)).
  rewrite Hfix, (valid_email_parts _ Hfix), Hy.
  split; intro H.
  - pose proof (valid_parts_no_space _ H) as Hn.
    assert (Hq : Forall (fun c => isspace c = false) (squash false (strip e))).
    { pose proof (all_ascii_squash false _ Hu) as Hsq.
      apply Forall_forall. intros c Hc.
      rewrite <- (isspace_low c (proj1 (Forall_forall _ _) Hsq c Hc)).
      apply (proj1 (Forall_forall _ _) Hn). apply in_map, Hc. }
    rewrite (squash_no_space _ Hq) in H. apply (valid_parts_low _ Hu), H.
  - pose proof (valid_parts_no_space _ H) as Hn.
    rewrite (squash_fixed_no_space _ Hn). apply (valid_parts_low _ Hu), H.
Qed.

(** X22: a column that the row lacks, or whose value is None, gives an
    empty field, and so does a value of whitespace only. *)
Theorem clean_contact_missing_column (r : row) :
  (dict_get r (lit "name") = None \/ dict_get r (lit "name") = Some None ->
   name (clean_contact r) = [])
  /\ (dict_get r (lit "email") = None \/ dict_get r (lit "email") = Some None ->
      email (clean_contact r) = [])
  /\ (dict_get r (lit "phone") = None \/ dict_get r (lit "phone") = Some None ->
      phone (clean_contact r) = [])
  /\ (dict_get r (lit "company") = None \/ dict_get r (lit "company") = Some None ->
      company (clean_contact r) = [])
  /\ (forall v, dict_get r (lit "email") = Some (Some v) ->
        Forall (fun c => isspace c = true) v -> email (clean_contact r) = []).
Proof.
  unfold clean_contact, get. simpl.
  split; [|split; [|split; [|split]]].
  - intros [-> | ->]; reflexivity.
  - intros [-> | ->]; reflexivity.
  - intros [-> | ->]; reflexivity.
  - intros [-> | ->]; reflexivity.
  - intros v -> Hv. unfold clean_email.
    assert (E : normalise_spaces (Some v) = []).
    { rewrite normalise_spaces_squash. simpl. unfold strip.
      induction Hv as [|c t Hc _ IH]; simpl; [reflexivity|]. rewrite Hc. exact IH. }
    rewrite E. reflexivity.
Qed.

End EmailProperties.

(* ================================================================== *)
(** ** The further properties at work *)

Lemma latin1_decimal_is_digit :
  forall c, (128 <= c)%N ->
            uni_isdecimal (Unicode:=latin1) c = true ->
            uni_isdigit (Unicode:=latin1) c = true.
Proof. intros c _ H. discriminate H. Qed.

Lemma sample_records_nodup : NoDup (map obj_id sample_records).
Proof. repeat constructor; simpl; intuition discriminate. Qed.

Lemma sample_records_cleaned :
  Forall (fun c => cleaned (U:=latin1) (fields c)) sample_records.
Proof. repeat constructor; apply sample_cleaned. Qed.

(** X8 on two spellings of one number. *)
Lemma clean_phone_separators_witness :
  filter (digit_or_plus (U:=latin1)) (lit "+44 (0)20 7946-0958")
  = filter (digit_or_plus (U:=latin1)) (lit "+44.020.7946.0958")
  /\ clean_phone (U:=latin1) (Some (lit "+44 (0)20 7946-0958"))
     = clean_phone (U:=latin1) (Some (lit "+44.020.7946.0958")).
Proof.
  assert (E : filter (digit_or_plus (U:=latin1)) (lit "+44 (0)20 7946-0958")
              = filter (digit_or_plus (U:=latin1)) (lit "+44.020.7946.0958"))
    by (vm_compute; reflexivity).
  split; [exact E|].
  exact (clean_phone_separators (U:=latin1) latin1_digits_not_space
           (Some (lit "+44 (0)20 7946-0958")) (Some (lit "+44.020.7946.0958")) E).
Defined.

(** X9 on an input without digits. *)
Lemma clean_phone_empty_witness :
  Forall (fun c => isdecimal (U:=latin1) c = false) (lit "n/a +")
  /\ clean_phone (U:=latin1) (Some (lit "n/a +")) = [].
Proof.
  assert (H : Forall (fun c => isdecimal (U:=latin1) c = false) (lit "n/a +"))
    by (repeat constructor).
  split; [exact H|].
  exact (proj2 (clean_phone_empty (U:=latin1) latin1_digits_not_space (lit "n/a +")) H).
Defined.

(** X10 on the number of the scenario. *)
Lemma cleaned_phone_validity_witness :
  is_valid_uk_phone (U:=latin1) (clean_phone (U:=latin1) (Some (lit "+44 7700 900123")))
  = true.
Proof.
  rewrite (cleaned_phone_validity (U:=latin1) latin1_decimal_is_digit).
  vm_compute. reflexivity.
Defined.

(** X11 on the two spellings of the scenarios. *)
Lemma uk_prefix_validity_witness :
  Forall (fun c => isdecimal (U:=latin1) c = true) (lit "7700900123")
  /\ filter (digit_or_plus (U:=latin1)) (lit "+44 7700 900123")
     = lit "+44" ++ lit "7700900123"
  /\ is_valid_uk_phone (U:=latin1) (clean_phone (U:=latin1) (Some (lit "+44 7700 900123")))
     = true
  /\ filter (digit_or_plus (U:=latin1)) (lit "0044 7700 900123")
     = lit "0044" ++ lit "7700900123"
  /\ is_valid_uk_phone (U:=latin1) (clean_phone (U:=latin1) (Some (lit "0044 7700 900123")))
     = false.
Proof.
  assert (H : Forall (fun c => isdecimal (U:=latin1) c = true) (lit "7700900123"))
    by (repeat constructor).
  assert (E1 : filter (digit_or_plus (U:=latin1)) (lit "+44 7700 900123")
               = lit "+44" ++ lit "7700900123") by (vm_compute; reflexivity).
  assert (E2 : filter (digit_or_plus (U:=latin1)) (lit "0044 7700 900123")
               = lit "0044" ++ lit "7700900123") by (vm_compute; reflexivity).
  split; [exact H|]. split; [exact E1|]. split.
  - exact (proj2 (proj1 (uk_prefix_validity (U:=latin1) latin1_digits_not_space
                           latin1_decimal_is_digit (lit "+44 7700 900123") _ H) E1)).
  - split; [exact E2|].
    exact (proj2 (proj2 (uk_prefix_validity (U:=latin1) latin1_digits_not_space
                           latin1_decimal_is_digit (lit "0044 7700 900123") _ H) E2)).
Defined.

(** X12 on the name of the scenario: the w after the hyphen. *)
Lemma clean_name_capitalises_parts_witness :
  all_ascii (lit "  amy-walker   jones ")
  /\ nth_error (clean_name (U:=latin1) (Some (lit "  amy-walker   jones "))) 4
     = Some 87%N.
Proof.
  assert (Ha : all_ascii (lit "  amy-walker   jones ")) by (repeat constructor).
  split; [exact Ha|].
  exact (proj2 (clean_name_capitalises_parts (U:=latin1) _ Ha) 4 119%N eq_refl).
Defined.

(** X13 on the email of the scenario. *)
Lemma clean_email_ignores_case_witness :
  all_ascii (lit " AMY@Example.COM ")
  /\ all_ascii (lit " amy@example.com ")
  /\ map low (lit " AMY@Example.COM ") = map low (lit " amy@example.com ")
  /\ clean_email (U:=latin1) (Some (lit " AMY@Example.COM "))
     = clean_email (U:=latin1) (Some (lit " amy@example.com ")).
Proof.
  assert (Ha : all_ascii (lit " AMY@Example.COM ")) by (repeat constructor).
  assert (Hb : all_ascii (lit " amy@example.com ")) by (repeat constructor).
  assert (E : map low (lit " AMY@Example.COM ") = map low (lit " amy@example.com "))
    by (vm_compute; reflexivity).
  split; [exact Ha|]. split; [exact Hb|]. split; [exact E|].
  exact (proj1 (clean_email_ignores_case (U:=latin1) _ _ Ha Hb) E).
Defined.

(** X14 on the sample records. *)
Lemma dedupe_conservation_witness :
  NoDup (map obj_id sample_records)
  /\ Forall (fun c => cleaned (U:=latin1) (fields c)) sample_records
  /\ length (deduped_contacts sample_records) + duplicates_removed sample_records = 6.
Proof.
  split; [exact sample_records_nodup|]. split; [exact sample_records_cleaned|].
  exact (dedupe_conservation (U:=latin1) latin1_lower_not_capital sample_records
           sample_records_nodup sample_records_cleaned).
Defined.

(** X15 on the sample records: the record with the phone is kept. *)
Lemma dedupe_keeps_most_complete_witness :
  In sample_better (deduped_contacts sample_records)
  /\ In sample_first sample_records
  /\ email (fields sample_better) <> []
  /\ email (fields sample_first) = email (fields sample_better)
  /\ completeness_score (fields sample_first)
     <= completeness_score (fields sample_better).
Proof.
  assert (H1 : In sample_better (deduped_contacts sample_records))
    by (vm_compute; auto).
  assert (H2 : In sample_first sample_records) by (simpl; auto).
  assert (H3 : email (fields sample_better) <> []) by (vm_compute; discriminate).
  assert (H4 : email (fields sample_first) = email (fields sample_better))
    by (vm_compute; reflexivity).
  repeat (split; [assumption|]).
  exact (dedupe_keeps_most_complete (U:=latin1) latin1_lower_not_capital
           sample_records sample_better sample_first
           sample_records_nodup sample_records_cleaned H1 H2 H3 H4).
Defined.

(** X16 on the sample records. *)
Lemma dedupe_emails_unique_witness :
  NoDup (map obj_id sample_records)
  /\ Forall (fun c => cleaned (U:=latin1) (fields c)) sample_records
  /\ exists v, In v (deduped_contacts sample_records)
               /\ email (fields v) = email (fields sample_tie).
Proof.
  split; [exact sample_records_nodup|]. split; [exact sample_records_cleaned|].
  apply (proj1 (dedupe_emails_unique (U:=latin1) latin1_lower_not_capital
                  sample_records sample_records_nodup sample_records_cleaned)).
  - simpl. auto.
  - vm_compute. discriminate.
Defined.

(** X17 on the sample records. *)
Lemma dedupe_order_first_seen_witness :
  NoDup (map obj_id sample_records)
  /\ Forall (fun c => cleaned (U:=latin1) (fields c)) sample_records
  /\ map key_of (deduped_contacts sample_records)
     = [lit "a@b.com"; lit "NOEMAIL_5"; lit "NOEMAIL_6"; lit "bob@c.org"].
Proof.
  split; [exact sample_records_nodup|]. split; [exact sample_records_cleaned|].
  rewrite (dedupe_order_first_seen (U:=latin1) latin1_lower_not_capital
             sample_records sample_records_nodup sample_records_cleaned).
  vm_compute. reflexivity.
Defined.

(** X18 on the sample records. *)
Lemma dedupe_idempotent_witness :
  NoDup (map obj_id sample_records)
  /\ Forall (fun c => cleaned (U:=latin1) (fields c)) sample_records
  /\ duplicates_removed (deduped_contacts sample_records) = 0.
Proof.
  split; [exact sample_records_nodup|]. split; [exact sample_records_cleaned|].
  exact (proj2 (dedupe_idempotent (U:=latin1) latin1_lower_not_capital
                  sample_records sample_records_nodup sample_records_cleaned)).
Defined.

(** X19 on the sample rows. *)
Lemma run_main_accounts_witness :
  NoDup [11%N; 12%N; 13%N; 14%N; 15%N]
  /\ length [11%N; 12%N; 13%N; 14%N; 15%N] = length sample_rows
  /\ snd (fst (run_main (U:=latin1) [11%N; 12%N; 13%N; 14%N; 15%N] sample_rows)) total
     = 5.
Proof.
  assert (Hnd : NoDup [11%N; 12%N; 13%N; 14%N; 15%N]).
  { repeat constructor; simpl; intuition discriminate. }
  split; [exact Hnd|]. split; [reflexivity|].
  pose proof (run_main_accounts (U:=latin1) latin1_lower_not_capital
                [11%N; 12%N; 13%N; 14%N; 15%N] sample_rows Hnd eq_refl) as H.
  destruct (run_main (U:=latin1) [11%N; 12%N; 13%N; 14%N; 15%N] sample_rows)
    as [[written s] removed].
  exact (proj1 H).
Defined.

(** X20 on the email of the scenario. *)
Lemma valid_email_shape_witness :
  is_valid_email (U:=latin1) (lit " amy@example.com ") = true
  /\ count_occ N.eq_dec (strip (U:=latin1) (lit " amy@example.com ")) 64%N = 1.
Proof.
  assert (H : is_valid_email (U:=latin1) (lit " amy@example.com ") = true)
    by (vm_compute; reflexivity).
  split; [exact H|].
  exact (proj1 (valid_email_shape (U:=latin1) _ H)).
Defined.

(** X21 on the email of the scenario. *)
Lemma clean_email_keeps_validity_witness :
  all_ascii (lit " AMY@Example.COM ")
  /\ is_valid_email (U:=latin1) (clean_email (U:=latin1) (Some (lit " AMY@Example.COM ")))
     = is_valid_email (U:=latin1) (lit " AMY@Example.COM ").
Proof.
  assert (Ha : all_ascii (lit " AMY@Example.COM ")) by (repeat constructor).
  split; [exact Ha|].
  exact (clean_email_keeps_validity (U:=latin1) _ Ha).
Defined.

(** X22 on the last of the sample rows, which has no email. *)
Lemma clean_contact_missing_column_witness :
  dict_get [(lit "name", Some (lit "   ")); (lit "email", None)] (lit "email")
  = Some None
  /\ email (clean_contact (U:=latin1)
              [(lit "name", Some (lit "   ")); (lit "email", None)]) = [].
Proof.
  split; [reflexivity|].
  apply (proj1 (proj2 (clean_contact_missing_column (U:=latin1) _))).
  right. reflexivity.
Defined.
